(** * craft_planner: a shallow embedding of the crafting planner

    The development follows [craft_planner.py] top to bottom:
    the [State] class, the rule compilers [make_checker],
    [make_effector] and [make_goal_checker], the successor generator
    [graph], the reference [heuristic] and the time-bounded [search].

    Conventions.
    - Python integers are [Z]; [math.inf] is the extra value [Inf] of [num].
    - A [State] object lives in a store and is named by a reference;
      functions that only read a state take its contents, functions
      that allocate or assign take the reference and run in the monad [M].
    - A raised exception is a value of [exn]; loops that need not
      terminate take fuel and answer [OutOfFuel] when it is used up.
    - [print] is not modelled; the calls of [time()] inside its
      arguments are. *)

From Stdlib Require Import ZArith String List Bool Lia.
From stdpp Require Import base list strings.
Import ListNotations.

Local Open Scope string_scope.
Local Open Scope list_scope.
Local Open Scope Z_scope.

(** ** Exceptions and results *)

Inductive exn : Type :=
| KeyError (key : string)        (* d[key] on a dict without [key] *)
| StateKeyError (key : nat)      (* d[s] on a dict keyed by states *)
| TypeError                      (* unpacking None, indexing a tuple by a str *)
| NameError                      (* a global that was never assigned *)
| IndexError                     (* heappop on an empty list *)
| OverflowError                  (* an int too large to convert to float *)
| SystemError.                   (* a reference to no object: no run reaches it *)

Inductive result (A : Type) : Type :=
| Ok (a : A)
| Raise (e : exn).
Arguments Ok {A} a.
Arguments Raise {A} e.

Definition rbind {A B} (r : result A) (k : A -> result B) : result B :=
  match r with
  | Ok a => k a
  | Raise e => Raise e
  end.

(** ** class State(OrderedDict) *)

(** The contents of a State: its items in insertion order. *)
Definition State : Type := list (string * Z).

Definition keys (self : State) : list string := map fst self.

(** [self[name]] *)
Fixpoint getitem (self : State) (name : string) : result Z :=
  match self with
  | [] => Raise (KeyError name)
  | (k, v) :: rest => if String.eqb k name then Ok v else getitem rest name
  end.

(** [self[name] = v]: an existing key keeps its position, a new key is
    appended. *)
Fixpoint setitem (self : State) (name : string) (v : Z) : State :=
  match self with
  | [] => [(name, v)]
  | (k, w) :: rest =>
      if String.eqb k name then (k, v) :: rest
      else (k, w) :: setitem rest name v
  end.

(** [self.update(other)] on contents. *)
Definition update (self : State) (other : list (string * Z)) : State :=
  fold_left (fun d kv => setitem d (fst kv) (snd kv)) other self.

(** [State(entries)]: the constructor inserts the entries one by one. *)
Definition State_init (entries : list (string * Z)) : State :=
  update [] entries.

(** [__key]: [tuple(self.items())]. *)
Definition State_key (self : State) : list (string * Z) := self.

(** Comparison of Python tuples, element by element: the first pair of
    elements that differ decides. *)
Fixpoint tuple_eqb {A} (eqb : A -> A -> bool) (x y : list A) : bool :=
  match x, y with
  | [], [] => true
  | a :: x', b :: y' => eqb a b && tuple_eqb eqb x' y'
  | _, _ => false
  end.

Fixpoint tuple_ltb {A} (eqb ltb : A -> A -> bool) (x y : list A) : bool :=
  match x, y with
  | [], [] => false
  | [], _ :: _ => true
  | _ :: _, [] => false
  | a :: x', b :: y' => if eqb a b then tuple_ltb eqb ltb x' y' else ltb a b
  end.

Definition item_eqb (a b : string * Z) : bool :=
  String.eqb (fst a) (fst b) && Z.eqb (snd a) (snd b).

Definition item_ltb (a b : string * Z) : bool :=
  if String.eqb (fst a) (fst b) then Z.ltb (snd a) (snd b)
  else String.ltb (fst a) (fst b).

(** [__eq__], inherited from OrderedDict: order-sensitive, the same as
    [list(self.items()) == list(other.items())]. *)
Definition State_eqb (self other : State) : bool :=
  tuple_eqb item_eqb self other.

(** [__lt__] *)
Definition State_ltb (self other : State) : bool :=
  tuple_ltb item_eqb item_ltb (State_key self) (State_key other).

Section Hash.
(** Python's [hash] on tuples of (str, int) pairs: some function. *)
Variable hash : list (string * Z) -> Z.

(** [__hash__] *)
Definition State_hash (self : State) : Z := hash (State_key self).
End Hash.

(** ** Rule descriptions and goals, as loaded from the domain file

    [Consumes] and [Requires] are optional (the code tests
    ['Consumes' in rule]); [Produces] and [Time] are indexed without a
    test.  A clause is a dict, kept as its items in iteration order. *)

Record Rule : Type := mkRule
  { Consumes : option (list (string * Z)); Requires : option (list string);
    Produces : list (string * Z); Time : Z }.

Definition Goal : Type := list (string * Z).

(** ** make_checker *)

(** [for name, amount in clause.items(): if state[name] < amount: return False];
    [Ok true] when the loop falls through. *)
Fixpoint check_amounts (state : State) (clause : list (string * Z)) : result bool :=
  match clause with
  | [] => Ok true
  | (name, amount) :: rest =>
      rbind (getitem state name) (fun q =>
        if q <? amount then Ok false else check_amounts state rest)
  end.

(** [for name in rule['Requires']: if state[name] < 1: return False] *)
Fixpoint check_requires (state : State) (names : list string) : result bool :=
  match names with
  | [] => Ok true
  | name :: rest =>
      rbind (getitem state name) (fun q =>
        if q <? 1 then Ok false else check_requires state rest)
  end.

Definition make_checker (rule : Rule) : State -> result bool :=
  fun state =>
    rbind (match Consumes rule with
           | Some c => check_amounts state c
           | None => Ok true
           end) (fun passed =>
      if passed then
        match Requires rule with
        | Some r => check_requires state r
        | None => Ok true
        end
      else Ok false).

(** ** make_goal_checker *)

Definition make_goal_checker (goal : Goal) : State -> result bool :=
  fun state => check_amounts state goal.

(** ** The store of State objects and the monad of the program *)

(** A reference to a State object. *)
Abbreviation ref := nat (only parsing).

(** [heap]: the State objects allocated so far, a reference is an index.
    [ticks]: how many events (calls of [time()] and pops of the frontier)
    have happened. *)
Record world : Type := mkWorld { heap : list State; ticks : nat }.

Inductive outcome (A : Type) : Type :=
| Ret (a : A) (w : world)
| Exc (e : exn)
| OutOfFuel.
Arguments Ret {A} a w.
Arguments Exc {A} e.
Arguments OutOfFuel {A}.

Definition M (A : Type) : Type := world -> outcome A.

#[global] Instance M_ret : MRet M := fun A a w => Ret a w.
#[global] Instance M_bind : MBind M := fun A B k m w =>
  match m w with
  | Ret a w' => k a w'
  | Exc e => Exc e
  | OutOfFuel => OutOfFuel
  end.

Definition raise {A} (e : exn) : M A := fun _ => Exc e.
Definition out_of_fuel {A} : M A := fun _ => OutOfFuel.
Definition lift {A} (r : result A) : M A :=
  fun w => match r with Ok a => Ret a w | Raise e => Exc e end.
Definition get_heap : M (list State) := fun w => Ret (heap w) w.

Definition deref (r : ref) : M State :=
  fun w => match heap w !! r with
           | Some d => Ret d w
           | None => Exc SystemError
           end.

Definition assign (r : ref) (d : State) : M unit :=
  fun w => Ret tt (mkWorld (<[r := d]> (heap w)) (ticks w)).

(** [State()] *)
Definition State_new : M ref :=
  fun w => Ret (length (heap w)) (mkWorld (heap w ++ [[]]) (ticks w)).

(** [self.update(other)] on objects *)
Definition State_update (self other : ref) : M unit :=
  items ← deref other;
  d ← deref self;
  assign self (update d items).

(** [State.copy] *)
Definition State_copy (self : ref) : M ref :=
  new_state ← State_new;
  State_update new_state self;;
  mret new_state.

(** [obj[name]] and [obj[name] = v] *)
Definition obj_getitem (obj : ref) (name : string) : M Z :=
  d ← deref obj; lift (getitem d name).

Definition obj_setitem (obj : ref) (name : string) (v : Z) : M unit :=
  d ← deref obj; assign obj (setitem d name v).

Fixpoint for_each {A} (l : list A) (body : A -> M unit) : M unit :=
  match l with
  | [] => mret tt
  | x :: rest => body x;; for_each rest body
  end.

(** ** make_effector *)

Definition make_effector (rule : Rule) : ref -> M ref :=
  fun state =>
    next_state ← State_copy state;
    match Consumes rule with
    | Some c =>
        for_each c (fun '(name, amount) =>
          q ← obj_getitem next_state name;
          obj_setitem next_state name (q - amount))
    | None => mret tt
    end;;
    for_each (Produces rule) (fun '(name, amount) =>
      q ← obj_getitem next_state name;
      obj_setitem next_state name (q + amount));;
    mret next_state.

(** ** Recipes and the rule-building loop of the main program *)

Record Recipe : Type := mkRecipe
  { name : string; check : State -> result bool;
    effect : ref -> M ref; cost : Z }.

Definition build_rules (recipes : list (string * Rule)) : list Recipe :=
  map (fun '(name, rule) =>
         mkRecipe name (make_checker rule) (make_effector rule) (Time rule))
      recipes.

(** A rule description as it is loaded, before anything has indexed it:
    each of the four entries may be absent.  A [Rule] is a description
    that has its [Produces] and its [Time]. *)
Record Description : Type := mkDescription
  { described_Consumes : option (list (string * Z));
    described_Requires : option (list string);
    described_Produces : option (list (string * Z));
    described_Time : option Z }.

(** The entries of a description that the closures read, an absent
    [Produces] taken as empty. *)
Definition rule_of (desc : Description) : Rule :=
  mkRule (described_Consumes desc) (described_Requires desc)
         (match described_Produces desc with Some p => p | None => [] end)
         (match described_Time desc with Some t => t | None => 0 end).

(** [make_checker(rule)] on a description: [check] reads [Consumes] and
    [Requires] only. *)
Definition checker_of (desc : Description) : State -> result bool :=
  make_checker (rule_of desc).

(** [make_effector(rule)] on a description: [effect] indexes
    [rule['Produces']] after the Consumes loop. *)
Definition effector_of (desc : Description) : ref -> M ref :=
  match described_Produces desc with
  | Some _ => make_effector (rule_of desc)
  | None => fun state =>
      _ ← make_effector (rule_of desc) state;
      raise (KeyError "Produces")
  end.

(** The rule-building loop on descriptions: [rule['Time']] is indexed
    when the Recipe of the rule is built. *)
Fixpoint build_recipes (descs : list (string * Description))
    : result (list Recipe) :=
  match descs with
  | [] => Ok []
  | (name, desc) :: rest =>
      match described_Time desc with
      | None => Raise (KeyError "Time")
      | Some t =>
          rbind (build_recipes rest) (fun rs =>
            Ok (mkRecipe name (checker_of desc) (effector_of desc) t :: rs))
      end
  end.

(** The description of a rule. *)
Definition describe (rule : Rule) : Description :=
  mkDescription (Consumes rule) (Requires rule) (Some (Produces rule))
                (Some (Time rule)).

(** ** graph

    A generator, consumed by a [for] loop: [body] is the loop body and
    [acc] the local variables it updates.  The generator is lazy, so the
    check of a rule runs after the body has handled the rule before. *)

Definition succ : Type := string * ref * Z.

Definition generator : Type :=
  ref -> forall A : Type, (succ -> A -> M A) -> A -> M A.

Fixpoint graph_from (rs : list Recipe) (state : ref) (A : Type)
    (body : succ -> A -> M A) (acc : A) : M A :=
  match rs with
  | [] => mret acc
  | r :: rest =>
      d ← deref state;
      ok ← lift (check r d);
      acc' ← (if ok : bool then
                next ← effect r state;
                body (name r, next, cost r) acc
              else mret acc);
      graph_from rest state A body acc'
  end.

Definition graph (all_recipes : list Recipe) : generator :=
  graph_from all_recipes.

(** ** heuristic *)

Inductive num : Type :=
| Fin (z : Z)
| Inf.

(** An int is converted to a float when it is added to [inf]; the
    conversion raises OverflowError for an int of magnitude
    [2**1024 - 2**970] or more. *)
Definition float_limit : Z := 2 ^ 1024 - 2 ^ 970.

Definition to_float_ok (x : Z) : bool := Z.abs x <? float_limit.

(** [a + b] *)
Definition num_add (a b : num) : result num :=
  match a, b with
  | Fin x, Fin y => Ok (Fin (x + y))
  | Fin x, Inf => if to_float_ok x then Ok Inf else Raise OverflowError
  | Inf, Fin y => if to_float_ok y then Ok Inf else Raise OverflowError
  | Inf, Inf => Ok Inf
  end.

Definition num_eqb (a b : num) : bool :=
  match a, b with
  | Fin x, Fin y => x =? y
  | Inf, Inf => true
  | _, _ => false
  end.

Definition num_ltb (a b : num) : bool :=
  match a, b with
  | Fin x, Fin y => x <? y
  | Fin _, Inf => true
  | Inf, _ => false
  end.

(** [recipe] is the global left by the rule-building loop: the Recipe
    built last, or no binding when there are no rules.  [item in recipe]
    compares the item with the four fields of the namedtuple, of which
    only the name is a string; [recipe[item]] then indexes a tuple by a
    string. *)
Fixpoint heuristic_items (recipe : option Recipe) (state : State)
    (items : list string) : result num :=
  match items with
  | [] => Ok (Fin 15)
  | item :: rest =>
      rbind (getitem state item) (fun q =>
        if q =? 0 then heuristic_items recipe state rest
        else match recipe with
             | None => Raise NameError
             | Some r =>
                 if String.eqb item (name r) then Raise TypeError
                 else heuristic_items recipe state rest
             end)
  end.

Definition heuristic (recipe : option Recipe) (state : State) : result num :=
  heuristic_items recipe state (keys state).

(** ** Containers of the search

    States are compared through the store, with [__eq__] and [__lt__]. *)

Definition obj_eqb (h : list State) (a b : ref) : bool :=
  match h !! a, h !! b with
  | Some x, Some y => State_eqb x y
  | _, _ => false
  end.

Definition obj_ltb (h : list State) (a b : ref) : bool :=
  match h !! a, h !! b with
  | Some x, Some y => State_ltb x y
  | _, _ => false
  end.

(** A dict keyed by states: [d[k]] and [d[k] = v]. *)
Fixpoint dict_get {V} (h : list State) (d : list (ref * V)) (k : ref) : option V :=
  match d with
  | [] => None
  | (k', v) :: rest => if obj_eqb h k' k then Some v else dict_get h rest k
  end.

Fixpoint dict_set {V} (h : list State) (d : list (ref * V)) (k : ref) (v : V)
    : list (ref * V) :=
  match d with
  | [] => [(k, v)]
  | (k', v') :: rest =>
      if obj_eqb h k' k then (k', v) :: rest
      else (k', v') :: dict_set h rest k v
  end.

(** The frontier holds tuples [(priority, state)].  [heapq] is Python's
    library: [heappush] adds an entry, [heappop] removes and returns a
    least one for the order [<] of tuples. *)
Definition entry : Type := num * ref.

Definition entry_ltb (h : list State) (x y : entry) : bool :=
  if num_eqb (fst x) (fst y) then
    if obj_eqb h (snd x) (snd y) then false
    else obj_ltb h (snd x) (snd y)
  else num_ltb (fst x) (fst y).

Definition heappush (frontier : list entry) (e : entry) : list entry :=
  frontier ++ [e].

Definition least (h : list State) (e : entry) (l : list entry) : entry :=
  fold_left (fun best x => if entry_ltb h x best then x else best) l e.

Fixpoint remove_entry (e : entry) (l : list entry) : list entry :=
  match l with
  | [] => []
  | x :: rest =>
      if num_eqb (fst x) (fst e) && Nat.eqb (snd x) (snd e) then rest
      else x :: remove_entry e rest
  end.

Definition heappop (h : list State) (frontier : list entry)
    : option (entry * list entry) :=
  match frontier with
  | [] => None
  | e :: rest =>
      let m := least h e rest in
      Some (m, remove_entry m frontier)
  end.

(** The local variables of one run of the outer loop. *)
Record frame : Type := mkFrame
  { frontier : list entry;
    came_from_dict : list (ref * option (ref * string));
    cost_so_far : list (ref * Z) }.

Definition plan : Type := list (ref * string).

(** ** search *)

Section SearchLoop.
(** [clock n] is the wall-clock time of the [n]-th event. *)
Variable clock : nat -> Z.

(** [time()] *)
Definition time : M Z :=
  fun w => Ret (clock (ticks w)) (mkWorld (heap w) (S (ticks w))).

(** The event of popping the frontier. *)
Definition pop_event : M unit :=
  fun w => Ret tt (mkWorld (heap w) (S (ticks w))).

Variable graph : generator.
Variable state : ref.
Variable is_goal : State -> result bool.
Variable limit : Z.
Variable heuristic : State -> result num.

(** The body of [for name, next, action_cost in graph(current)].
    The call [make_effector(name)] builds a closure and drops it. *)
Definition relax (current : ref) (s : succ) (fr : frame) : M frame :=
  let '(name, next, action_cost) := s in
  h ← get_heap;
  c ← match dict_get h (cost_so_far fr) current with
      | Some c => mret c
      | None => raise (StateKeyError current)
      end;
  let new_cost := action_cost + c in
  if match dict_get h (cost_so_far fr) next with
     | None => true
     | Some old => new_cost <? old
     end
  then
    d ← deref current;
    hv ← lift (heuristic d);
    priority ← lift (num_add (Fin new_cost) hv);
    mret {| frontier := heappush (frontier fr) (priority, next);
            came_from_dict :=
              dict_set h (came_from_dict fr) next (Some (current, name));
            cost_so_far := dict_set h (cost_so_far fr) next new_cost |}
  else mret fr.

(** [while came_from != state: ...] *)
Fixpoint walk (fuel : nat) (came_from_dict : list (ref * option (ref * string)))
    (came_from : ref) (ret_list : plan) : M plan :=
  fun w =>
    if obj_eqb (heap w) came_from state then Ret ret_list w
    else match fuel with
         | O => OutOfFuel
         | S n =>
             match dict_get (heap w) came_from_dict came_from with
             | None => Exc (StateKeyError came_from)
             | Some None => Exc TypeError
             | Some (Some (prev, prev_name)) =>
                 walk n came_from_dict prev
                      (ret_list ++ [(prev, prev_name)]) w
             end
         end.

(** [while frontier: ...]; [Some p] when the loop returns the plan [p],
    [None] when the frontier runs empty. *)
Fixpoint explore (fuel : nat) (fr : frame) : M (option plan) :=
  match frontier fr with
  | [] => mret None
  | _ :: _ =>
      match fuel with
      | O => out_of_fuel
      | S n =>
          h ← get_heap;
          match heappop h (frontier fr) with
          | None => raise IndexError
          | Some ((_, current), rest) =>
              pop_event;;
              d ← deref current;
              goal ← lift (is_goal d);
              if goal : bool then
                _ ← match dict_get h (cost_so_far fr) current with
                    | Some times => mret times
                    | None => raise (StateKeyError current)
                    end;
                ret_list ← walk n (came_from_dict fr) current
                                [(current, "complete")];
                _ ← time;
                mret (Some (rev ret_list))
              else
                fr' ← graph current frame (relax current)
                      (mkFrame rest (came_from_dict fr) (cost_so_far fr));
                explore n fr'
          end
      end
  end.

(** [while time() - start_time < limit: ...] and the failure exit. *)
Fixpoint restart (fuel : nat) (start_time : Z) : M (option plan) :=
  match fuel with
  | O => out_of_fuel
  | S n =>
      now ← time;
      if now - start_time <? limit then
        h ← get_heap;
        r ← explore n
              (mkFrame (heappush [] (Fin 0, state))
                       (dict_set h [] state None)
                       (dict_set h [] state 0));
        match r with
        | Some p => mret (Some p)
        | None => restart n start_time
        end
      else
        _ ← time;
        mret None
  end.

Definition search (fuel : nat) : M (option plan) :=
  start_time ← time;
  restart fuel start_time.
End SearchLoop.

(** ** The main program *)

Record Crafting : Type := mkCrafting
  { Items : list string; Initial : list (string * Z);
    Goal_ : Goal; Recipes : list (string * Rule) }.

(** The state built by the main program:
    [State({key: 0 for key in Items})], then [update(Initial)]. *)
Definition initial_state (c : Crafting) : State :=
  update (State_init (map (fun key => (key, 0)) (Items c))) (Initial c).

(** What the main program prints for a plan: each state and its action. *)
Fixpoint plan_states (p : plan) : M (list (State * string)) :=
  match p with
  | [] => mret []
  | (s, action) :: rest =>
      d ← deref s;
      tl ← plan_states rest;
      mret ((d, action) :: tl)
  end.

Definition main (clock : nat -> Z) (fuel : nat) (c : Crafting)
    : M (option (list (State * string))) :=
  let all_recipes := build_rules (Recipes c) in
  let is_goal := make_goal_checker (Goal_ c) in
  state ← (s ← State_new; assign s (initial_state c);; mret s);
  resulting_plan ←
    search clock (graph all_recipes) state is_goal 5
           (heuristic (last all_recipes)) fuel;
  match resulting_plan with
  | Some p => shown ← plan_states p; mret (Some shown)
  | None => mret None
  end.

Definition empty_world : world := mkWorld [] 0.

(** ** Vocabulary of the statements *)

(** The items of an optional clause; an absent clause names none. *)
Definition clause {A} (c : option (list A)) : list A :=
  match c with
  | Some l => l
  | None => []
  end.

(** Every item a rule names. *)
Definition rule_items (rule : Rule) : list string :=
  map fst (clause (Consumes rule)) ++ clause (Requires rule)
    ++ map fst (Produces rule).

(** The lookups [check] makes, in order, each with the least quantity
    that passes. *)
Definition thresholds (rule : Rule) : list (string * Z) :=
  clause (Consumes rule) ++ map (fun name => (name, 1)) (clause (Requires rule)).

(** A state meets a list of thresholds. *)
Definition meets (state : State) (l : list (string * Z)) : Prop :=
  forall n a, In (n, a) l -> exists q, getitem state n = Ok q /\ a <= q.

(** The amount a clause gives for an item, 0 when it does not name it. *)
Definition amount (c : list (string * Z)) (n : string) : Z :=
  match getitem c n with
  | Ok a => a
  | Raise _ => 0
  end.

(** What a loop [for name, amount in c.items(): d[name] = f d[name] amount]
    makes of the items [d]. *)
Fixpoint adjust (f : Z -> Z -> Z) (d : State) (c : list (string * Z)) : result State :=
  match c with
  | [] => Ok d
  | (n, a) :: rest =>
      rbind (getitem d n) (fun q => adjust f (setitem d n (f q a)) rest)
  end.

(** The test of the search on a successor: [next] has no recorded cost,
    or [new_cost] is less than the recorded one. *)
Definition improves (h : list State) (cost_so_far : list (ref * Z))
    (next : ref) (new_cost : Z) : Prop :=
  dict_get h cost_so_far next = None \/
  exists old, dict_get h cost_so_far next = Some old /\ new_cost < old.

(** What the loop body makes of a frame for one successor: with
    [new_cost = action_cost + cost_so_far[current]], when [next] has no
    recorded cost or [new_cost] is less, [new_cost] is recorded for
    [next], [(current, name)] is recorded as its predecessor and [next]
    is pushed with the priority [new_cost + heuristic(current)]; the
    records of the other states are as before.  Otherwise the frame is as
    before. *)
Definition relaxes (heuristic : State -> result num) (h : list State)
    (current : ref) (s : succ) (fr fr' : frame) : Prop :=
  let '(name, next, action_cost) := s in
  exists c,
    dict_get h (cost_so_far fr) current = Some c /\
    (improves h (cost_so_far fr) next (action_cost + c) ->
     exists d hv priority,
       h !! current = Some d /\ heuristic d = Ok hv /\
       num_add (Fin (action_cost + c)) hv = Ok priority /\
       fr' = mkFrame
               (heappush (frontier fr) (priority, next))
               (dict_set h (came_from_dict fr) next (Some (current, name)))
               (dict_set h (cost_so_far fr) next (action_cost + c)) /\
       dict_get h (cost_so_far fr') next = Some (action_cost + c) /\
       dict_get h (came_from_dict fr') next = Some (Some (current, name)) /\
       forall k, obj_eqb h next k = false ->
         dict_get h (cost_so_far fr') k = dict_get h (cost_so_far fr) k /\
         dict_get h (came_from_dict fr') k
           = dict_get h (came_from_dict fr) k) /\
    (~ improves h (cost_so_far fr) next (action_cost + c) -> fr' = fr).

(** One expansion of [current] over the rules, in their order: a rule
    whose [check] is false is passed over; a rule whose [check] is true
    yields the successor made by its [effect], and the loop body handles
    it before the next rule is looked at. *)
Inductive expands (heuristic : State -> result num) (current : ref)
    : list (string * Rule) -> frame -> world -> frame -> world -> Prop :=
| expands_done (fr : frame) (w : world) :
    expands heuristic current [] fr w fr w
| expands_skip (nm : string) (rule : Rule) (rs : list (string * Rule))
    (fr : frame) (w : world) (fr' : frame) (w' : world) (d : State) :
    heap w !! current = Some d ->
    make_checker rule d = Ok false ->
    expands heuristic current rs fr w fr' w' ->
    expands heuristic current ((nm, rule) :: rs) fr w fr' w'
| expands_yield (nm : string) (rule : Rule) (rs : list (string * Rule))
    (fr : frame) (w : world) (d : State) (next : ref) (w1 : world)
    (fr1 fr' : frame) (w' : world) :
    heap w !! current = Some d ->
    make_checker rule d = Ok true ->
    make_effector rule current w = Ret next w1 ->
    relaxes heuristic (heap w1) current (nm, next, Time rule) fr fr1 ->
    expands heuristic current rs fr1 w1 fr' w' ->
    expands heuristic current ((nm, rule) :: rs) fr w fr' w'.

(** A plan that runs from the initial state to a state of the goal: its
    first pair holds a state equal to [state], its last pair a state that
    satisfies [is_goal], with the action ["complete"]. *)
Definition whole_plan (h : list State) (state : ref)
    (is_goal : State -> result bool) (p : plan) : Prop :=
  exists s0 a0 tl g dg,
    p = (s0, a0) :: tl /\ obj_eqb h s0 state = true /\
    last p = Some (g, "complete") /\
    h !! g = Some dg /\ is_goal dg = Ok true.

(** ** Domains used as examples *)

(** One rule [chop] turns a [wood] into four [plank]; the goal asks for
    four [plank]. *)
Definition scenario_A : Crafting :=
  mkCrafting ["wood"; "plank"] [("wood", 5)] [("plank", 4)]
    [("chop", mkRule (Some [("wood", 1)]) None [("plank", 4)] 1)].

(** A rule that names an item no state has, at a negative cost. *)
Definition malformed_domain : Crafting :=
  mkCrafting ["wood"; "plank"] [("wood", 5)] [("plank", 1)]
    [("saw", mkRule (Some [("ghost", 1)]) None [("plank", 1)] (-3))].

(** [scenario_A] with a negative cost. *)
Definition negative_cost_domain : Crafting :=
  mkCrafting ["wood"; "plank"] [("wood", 5)] [("plank", 4)]
    [("chop", mkRule (Some [("wood", 1)]) None [("plank", 4)] (-3))].

(** A clock that stands at 0 for the first two events (the reading of
    [start_time] and the first test of the deadline) and at 100 from
    then on. *)
Definition late_clock (n : nat) : Z := if (n <? 2)%nat then 0 else 100.

(** ** What a generator yields *)

(** The loop body that lists what is yielded. *)
Definition collect (s : succ) (acc : list succ) : M (list succ) :=
  mret (acc ++ [s]).

(** [list(graph(state))] *)
Definition successors (all_recipes : list Recipe) (state : ref) : M (list succ) :=
  graph all_recipes state (list succ) collect [].

(** ** More vocabulary *)

(** [check] is true: the rule applies to the state. *)
Definition applies (d : State) (rule : Rule) : bool :=
  match make_checker rule d with
  | Ok true => true
  | _ => false
  end.

(** A rule whose clauses name no key twice and name keys of [ks] only. *)
Definition closed_rule (ks : list string) (rule : Rule) : Prop :=
  List.NoDup (map fst (clause (Consumes rule))) /\
  List.NoDup (map fst (Produces rule)) /\
  forall n, In n (rule_items rule) -> In n ks.

(** The rules of a list, each with its cost and the next reference. *)
Fixpoint numbered (base : nat) (l : list (string * Rule)) : list succ :=
  match l with
  | [] => []
  | (nm, rule) :: rest => (nm, base, Time rule) :: numbered (S base) rest
  end.

(** The items of [d'] are those of [d] after the rule. *)
Definition result_of (d : State) (rule : Rule) (d' : State) : Prop :=
  keys d' = keys d /\
  forall n q, getitem d n = Ok q ->
    getitem d' n =
    Ok (q - amount (clause (Consumes rule)) n + amount (Produces rule) n).

(** In a plan, every pair but the last holds the predecessor and the
    action that [came_from_dict] records for the state of the next pair. *)
Fixpoint linked (h : list State)
    (came_from_dict : list (ref * option (ref * string))) (p : plan) : Prop :=
  match p with
  | [] => True
  | (s, a) :: rest =>
      match rest with
      | [] => True
      | (s', _) :: _ => dict_get h came_from_dict s' = Some (Some (s, a))
      end /\ linked h came_from_dict rest
  end.

(** ** Invariants of the search *)

(** [r] names a State with the keys [ks]. *)
Definition good (ks : list string) (h : list State) (r : ref) : Prop :=
  exists d, h !! r = Some d /\ keys d = ks.

(** What the containers of the search keep true: every state of the
    frontier has a recorded cost and a recorded predecessor; the keys of
    the dicts are allocated States; a predecessor entry is None for
    states equal to the initial state only, and otherwise names a state that
    has an entry itself. *)
Definition search_inv (ks : list string) (state : ref) (h : list State)
    (fr : frame) : Prop :=
  (forall p s, In (p, s) (frontier fr) ->
     good ks h s /\
     is_Some (dict_get h (cost_so_far fr) s) /\
     is_Some (dict_get h (came_from_dict fr) s)) /\
  (forall k c, In (k, c) (cost_so_far fr) -> good ks h k) /\
  (forall k v, In (k, v) (came_from_dict fr) ->
     good ks h k /\
     match v with
     | None => obj_eqb h k state = true
     | Some (prev, _) =>
         good ks h prev /\ is_Some (dict_get h (came_from_dict fr) prev)
     end).

(** An outcome that raises an exception of [E] only and, when it is a
    return, comes with a store that has the objects of [h], unchanged,
    followed by States with the keys [ks], and with a value that
    satisfies [Q] in that store. *)
Definition safe {A} (ks : list string) (h : list State) (E : exn -> Prop)
    (Q : A -> list State -> Prop) (o : outcome A) : Prop :=
  match o with
  | Ret a w' =>
      (exists news, heap w' = h ++ news /\
                    Forall (fun d => keys d = ks) news) /\
      Q a (heap w')
  | Exc e => E e
  | OutOfFuel => True
  end.

(** Every state of a returned plan is an allocated State with the keys
    [ks]. *)
Definition plan_good (ks : list string) (r : option plan) (h : list State)
    : Prop :=
  match r with
  | Some p => forall s a, In (s, a) p -> good ks h s
  | None => True
  end.

(** * Properties *)

(** ** Items of a State *)

Lemma getitem_in (d : State) (n : string) :
  In n (keys d) -> exists q, getitem d n = Ok q.
Proof.
  induction d as [|[k v] d IH]; simpl; [tauto|].
  intros H. destruct (String.eqb_spec k n) as [->|Hne]; [eauto|].
  destruct H as [H|H]; [congruence|auto].
Qed.

Lemma getitem_not_in (d : State) (n : string) :
  ~ In n (keys d) -> getitem d n = Raise (KeyError n).
Proof.
  induction d as [|[k v] d IH]; simpl; [reflexivity|].
  intros H. destruct (String.eqb_spec k n) as [->|Hne]; [tauto|].
  apply IH. tauto.
Qed.

Lemma getitem_Ok_in (d : State) (n : string) (q : Z) :
  getitem d n = Ok q -> In (n, q) d.
Proof.
  induction d as [|[k v] d IH]; simpl; [discriminate|].
  destruct (String.eqb_spec k n) as [->|Hne].
  - intros [= ->]. now left.
  - intros H. right. auto.
Qed.

Lemma getitem_Ok_keys (d : State) (n : string) (q : Z) :
  getitem d n = Ok q -> In n (keys d).
Proof.
  intros H. apply getitem_Ok_in in H. unfold keys.
  apply in_map_iff. exists (n, q). auto.
Qed.

Lemma getitem_unique (d : State) (n : string) (a : Z) :
  List.NoDup (keys d) -> In (n, a) d -> getitem d n = Ok a.
Proof.
  induction d as [|[k v] d IH]; simpl; [tauto|].
  intros Hnd Hin. apply List.NoDup_cons_iff in Hnd as [Hk Hnd].
  destruct Hin as [[= -> ->]|Hin].
  - now rewrite String.eqb_refl.
  - destruct (String.eqb_spec k n) as [->|Hne]; [|auto].
    exfalso. apply Hk. unfold keys. apply in_map_iff. exists (n, a). auto.
Qed.

Lemma getitem_setitem (d : State) (k n : string) (v : Z) :
  getitem (setitem d k v) n = if String.eqb k n then Ok v else getitem d n.
Proof.
  induction d as [|[k' w] d IH]; simpl.
  - destruct (String.eqb_spec k n); reflexivity.
  - destruct (String.eqb_spec k' k) as [->|Hne]; simpl.
    + destruct (String.eqb_spec k n); reflexivity.
    + rewrite IH. destruct (String.eqb_spec k' n) as [->|Hne'].
      * destruct (String.eqb_spec k n); [congruence|reflexivity].
      * reflexivity.
Qed.

Lemma keys_setitem_in (d : State) (k : string) (v : Z) :
  In k (keys d) -> keys (setitem d k v) = keys d.
Proof.
  induction d as [|[k' w] d IH]; simpl; [tauto|].
  intros H. destruct (String.eqb_spec k' k) as [->|Hne]; simpl; [reflexivity|].
  f_equal. apply IH. destruct H; [congruence|assumption].
Qed.

Lemma keys_setitem_new (d : State) (k : string) (v : Z) :
  ~ In k (keys d) -> keys (setitem d k v) = (keys d ++ [k]).
Proof.
  induction d as [|[k' w] d IH]; simpl; [reflexivity|].
  intros H. destruct (String.eqb_spec k' k) as [->|Hne]; [tauto|].
  simpl. f_equal. apply IH. tauto.
Qed.

Lemma NoDup_keys_setitem (d : State) (k : string) (v : Z) :
  List.NoDup (keys d) -> List.NoDup (keys (setitem d k v)).
Proof.
  intros Hnd. destruct (in_dec string_dec k (keys d)) as [Hin|Hout].
  - now rewrite keys_setitem_in.
  - rewrite keys_setitem_new by assumption.
    apply List.NoDup_app; [assumption| |].
    + apply List.NoDup_cons; [simpl; tauto|apply List.NoDup_nil].
    + intros x Hx [->|[]]. contradiction.
Qed.

Lemma NoDup_keys_update (d : State) (l : list (string * Z)) :
  List.NoDup (keys d) -> List.NoDup (keys (update d l)).
Proof.
  revert d. induction l as [|[k v] l IH]; intros d Hnd; simpl; [assumption|].
  apply IH. now apply NoDup_keys_setitem.
Qed.

Lemma NoDup_keys_State_init (entries : list (string * Z)) :
  List.NoDup (keys (State_init entries)).
Proof. apply NoDup_keys_update. apply List.NoDup_nil. Qed.

(** ** Equality of States *)

Lemma item_eqb_eq (a b : string * Z) : item_eqb a b = true <-> a = b.
Proof.
  destruct a as [k v], b as [k' v']. unfold item_eqb. simpl.
  rewrite andb_true_iff, String.eqb_eq, Z.eqb_eq.
  split; [intros [-> ->]; reflexivity|intros [= -> ->]; auto].
Qed.

Lemma State_eqb_eq (a b : State) : State_eqb a b = true <-> a = b.
Proof.
  unfold State_eqb. revert b.
  induction a as [|x a IH]; intros [|y b]; simpl; try (split; congruence).
  rewrite andb_true_iff, item_eqb_eq, IH.
  split; [intros [-> ->]; reflexivity|intros [= -> ->]; auto].
Qed.

Lemma State_eqb_refl (a : State) : State_eqb a a = true.
Proof. now apply State_eqb_eq. Qed.

(** Two dicts with the same keys in the same order and the same value
    for every key have the same items. *)
Lemma same_keys_same_items (a b : State) :
  List.NoDup (keys a) -> keys a = keys b ->
  (forall n, getitem a n = getitem b n) -> a = b.
Proof.
  revert b. induction a as [|[k v] a IH]; intros [|[k' v'] b]; simpl;
    try discriminate; [reflexivity|].
  intros Hnd [= <- Hk] Hget. apply List.NoDup_cons_iff in Hnd as [Hk' Hnd].
  pose proof (Hget k) as Hkk. rewrite String.eqb_refl in Hkk.
  injection Hkk as <-. f_equal. apply IH; [assumption..|].
  intros n. specialize (Hget n).
  destruct (String.eqb_spec k n) as [Heq|Hne]; [|assumption].
  subst n. rewrite !getitem_not_in; [reflexivity| |assumption].
  now rewrite <- Hk.
Qed.

Lemma State_eqb_sym (a b : State) : State_eqb a b = State_eqb b a.
Proof.
  destruct (State_eqb a b) eqn:Hab, (State_eqb b a) eqn:Hba; try reflexivity.
  - apply State_eqb_eq in Hab. subst b. now rewrite State_eqb_refl in Hba.
  - apply State_eqb_eq in Hba. subst b. now rewrite State_eqb_refl in Hab.
Qed.

Lemma State_eqb_trans (a b c : State) :
  State_eqb a b = true -> State_eqb b c = true -> State_eqb a c = true.
Proof. rewrite !State_eqb_eq. congruence. Qed.

(** C7 (as amended).  The hash of a State is a function of its items;
    equality of States is reflexive, symmetric and transitive, and
    equal States have equal hashes.  Two States built from entries that
    give the same keys in the same order of insertion and the same
    quantity for every item are equal and hash equal. *)
Theorem State_eq_hash_same_order (hash : list (string * Z) -> Z) :
  (forall s : State, State_hash hash s = State_hash hash s) /\
  (forall s : State, State_eqb s s = true) /\
  (forall a b : State, State_eqb a b = State_eqb b a) /\
  (forall a b c : State,
      State_eqb a b = true -> State_eqb b c = true -> State_eqb a c = true) /\
  (forall a b : State,
      State_eqb a b = true -> State_hash hash a = State_hash hash b) /\
  (forall e1 e2 : list (string * Z),
      keys (State_init e1) = keys (State_init e2) ->
      (forall n, getitem (State_init e1) n = getitem (State_init e2) n) ->
      State_eqb (State_init e1) (State_init e2) = true /\
      State_hash hash (State_init e1) = State_hash hash (State_init e2)).
Proof.
  repeat split.
  - apply State_eqb_refl.
  - apply State_eqb_sym.
  - apply State_eqb_trans.
  - intros a b H. apply State_eqb_eq in H. now subst.
  - apply State_eqb_eq. apply same_keys_same_items; auto.
    apply NoDup_keys_State_init.
  - f_equal. apply same_keys_same_items; auto.
    apply NoDup_keys_State_init.
Qed.

Lemma State_eq_hash_same_order_witness :
  State_eqb (State_init [("a", 1); ("b", 2); ("a", 3)])
            (State_init [("a", 3); ("b", 2)]) = true /\
  State_hash (fun items => Z.of_nat (length items))
             (State_init [("a", 1); ("b", 2); ("a", 3)]) =
  State_hash (fun items => Z.of_nat (length items))
             (State_init [("a", 3); ("b", 2)]).
Proof.
  destruct (State_eq_hash_same_order (fun items => Z.of_nat (length items)))
    as (_ & _ & _ & _ & _ & H).
  apply H; [reflexivity|]. intros n. reflexivity.
Defined.

(** C7 (as stated) fails: the same two entries inserted in the two
    possible orders give the same quantity for every item, and two States
    that are not equal. *)
Lemma State_eq_insertion_order_counterexample :
  Permutation [("a", 1); ("b", 2)] [("b", 2); ("a", 1)] /\
  (forall n, getitem (State_init [("a", 1); ("b", 2)]) n =
             getitem (State_init [("b", 2); ("a", 1)]) n) /\
  State_eqb (State_init [("a", 1); ("b", 2)])
            (State_init [("b", 2); ("a", 1)]) = false.
Proof.
  split; [apply perm_swap|]. split; [|reflexivity].
  intros n.
  change (State_init [("a", 1); ("b", 2)]) with [("a", 1); ("b", 2)].
  change (State_init [("b", 2); ("a", 1)]) with [("b", 2); ("a", 1)].
  cbn [getitem].
  destruct (String.eqb_spec "a" n) as [Ha|Ha];
    destruct (String.eqb_spec "b" n) as [Hb|Hb];
    try reflexivity; subst; discriminate.
Qed.

(** ** The precondition and the goal predicate *)

Lemma check_amounts_app (state : State) (l1 l2 : list (string * Z)) :
  check_amounts state (l1 ++ l2) =
  rbind (check_amounts state l1)
        (fun passed => if passed then check_amounts state l2 else Ok false).
Proof.
  induction l1 as [|[n a] l1 IH]; simpl.
  - now destruct (check_amounts state l2) as [[]|].
  - destruct (getitem state n) as [q|e]; simpl; [|reflexivity].
    destruct (q <? a); [reflexivity|apply IH].
Qed.

Lemma check_requires_amounts (state : State) (names : list string) :
  check_requires state names =
  check_amounts state (map (fun name => (name, 1)) names).
Proof.
  induction names as [|n names IH]; simpl; [reflexivity|].
  destruct (getitem state n) as [q|e]; simpl; [|reflexivity].
  destruct (q <? 1); [reflexivity|apply IH].
Qed.

(** [check] is one pass over the thresholds of the rule. *)
Lemma make_checker_thresholds (rule : Rule) (state : State) :
  make_checker rule state = check_amounts state (thresholds rule).
Proof.
  unfold make_checker, thresholds. rewrite check_amounts_app.
  destruct (Consumes rule) as [c|], (Requires rule) as [r|]; simpl;
    rewrite ?check_requires_amounts; reflexivity.
Qed.

Lemma check_amounts_present (state : State) (l : list (string * Z)) :
  (forall n a, In (n, a) l -> In n (keys state)) ->
  exists b, check_amounts state l = Ok b /\ (b = true <-> meets state l).
Proof.
  induction l as [|[n a] l IH]; intros Hin.
  - exists true. split; [reflexivity|]. split; [|reflexivity].
    intros _ n a [].
  - destruct (getitem_in state n) as [q Hq]; [apply (Hin n a); now left|].
    destruct IH as [b [Hb Hiff]]; [intros m c Hm; apply (Hin m c); now right|].
    simpl. rewrite Hq. simpl. destruct (Z.ltb_spec q a) as [Hlt|Hge].
    + exists false. split; [reflexivity|]. split; [discriminate|].
      intros Hmeets. destruct (Hmeets n a) as [q' [Hq' Hle]]; [now left|].
      rewrite Hq in Hq'. injection Hq' as <-. lia.
    + exists b. split; [assumption|]. rewrite Hiff. split.
      * intros Hl m c [[= -> ->]|Hm]; [eauto|auto].
      * intros Hl m c Hm. apply Hl. now right.
Qed.

Lemma check_amounts_missing (state : State) (pre post : list (string * Z))
    (n : string) (a : Z) :
  meets state pre -> ~ In n (keys state) ->
  check_amounts state (pre ++ (n, a) :: post) = Raise (KeyError n).
Proof.
  intros Hpre Hn. induction pre as [|[m b] pre IH]; simpl.
  - now rewrite getitem_not_in.
  - destruct (Hpre m b) as [q [Hq Hle]]; [now left|].
    rewrite Hq. simpl. destruct (Z.ltb_spec q b); [lia|].
    apply IH. intros k c Hk. apply Hpre. now right.
Qed.

(** C3.  On a state that has every item the rule names, [check] returns
    a boolean, and it is true exactly when every Consumes item is
    there in at least its amount and every Requires item at least once. *)
Theorem check_true_iff_enough (rule : Rule) (state : State) :
  (forall n, In n (rule_items rule) -> In n (keys state)) ->
  exists b, make_checker rule state = Ok b /\
    (b = true <->
     (forall n a, In (n, a) (clause (Consumes rule)) ->
                  exists q, getitem state n = Ok q /\ a <= q) /\
     (forall n, In n (clause (Requires rule)) ->
                exists q, getitem state n = Ok q /\ 1 <= q)).
Proof.
  intros Hin. rewrite make_checker_thresholds.
  destruct (check_amounts_present state (thresholds rule)) as [b [Hb Hiff]].
  - intros n a H. apply Hin. unfold thresholds in H. unfold rule_items.
    apply in_app_or in H as [H|H].
    + apply in_or_app. left. apply in_map_iff. exists (n, a). auto.
    + apply in_or_app. right. apply in_or_app. left.
      apply in_map_iff in H as [m [[= -> <-] Hm]]. assumption.
  - exists b. split; [assumption|]. rewrite Hiff. unfold meets, thresholds.
    split.
    + intros H. split.
      * intros n a Hn. apply H. apply in_or_app. now left.
      * intros n Hn. apply H. apply in_or_app. right.
        apply in_map_iff. exists n. auto.
    + intros [Hc Hr] n a H. apply in_app_or in H as [H|H]; [auto|].
      apply in_map_iff in H as [m [[= -> <-] Hm]]. auto.
Qed.

Lemma check_true_iff_enough_witness :
  exists b,
    make_checker (mkRule (Some [("wood", 1)]) (Some ["bench"]) [("plank", 4)] 1)
                 [("wood", 5); ("bench", 1); ("plank", 0)] = Ok b /\
    (b = true <->
     (forall n a, In (n, a) [("wood", 1)] ->
        exists q, getitem [("wood", 5); ("bench", 1); ("plank", 0)] n = Ok q
                  /\ a <= q) /\
     (forall n, In n ["bench"] ->
        exists q, getitem [("wood", 5); ("bench", 1); ("plank", 0)] n = Ok q
                  /\ 1 <= q)).
Proof.
  apply (check_true_iff_enough
           (mkRule (Some [("wood", 1)]) (Some ["bench"]) [("plank", 4)] 1)
           [("wood", 5); ("bench", 1); ("plank", 0)]).
  intros n H. simpl in H. simpl. tauto.
Defined.

Lemma check_amounts_agree (state state' : State) (l : list (string * Z)) :
  (forall n a, In (n, a) l -> getitem state' n = getitem state n) ->
  check_amounts state' l = check_amounts state l.
Proof.
  induction l as [|[n a] l IH]; intros H; simpl; [reflexivity|].
  rewrite (H n a) by now left.
  destruct (getitem state n) as [q|e]; simpl; [|reflexivity].
  destruct (q <? a); [reflexivity|]. apply IH.
  intros m c Hm. apply (H m c). now right.
Qed.

(** C5.  On a state that has every item of the goal, [is_goal] returns
    a boolean, true exactly when every goal item is there in at least the
    required amount; a state that agrees with it on the goal items gets
    the same answer, whatever its other quantities. *)
Theorem is_goal_true_iff_enough (goal : Goal) (state : State) :
  (forall n a, In (n, a) goal -> In n (keys state)) ->
  (exists b, make_goal_checker goal state = Ok b /\
     (b = true <->
      forall n a, In (n, a) goal -> exists q, getitem state n = Ok q /\ a <= q)) /\
  (forall state' : State,
     (forall n a, In (n, a) goal -> getitem state' n = getitem state n) ->
     make_goal_checker goal state' = make_goal_checker goal state).
Proof.
  intros Hin. split.
  - apply check_amounts_present. assumption.
  - intros state' H. apply check_amounts_agree. assumption.
Qed.

Lemma is_goal_true_iff_enough_witness :
  (exists b, make_goal_checker [("plank", 4)] [("wood", 4); ("plank", 4)] = Ok b /\
     (b = true <->
      forall n a, In (n, a) [("plank", 4)] ->
        exists q, getitem [("wood", 4); ("plank", 4)] n = Ok q /\ a <= q)) /\
  (forall state' : State,
     (forall n a, In (n, a) [("plank", 4)] ->
        getitem state' n = getitem [("wood", 4); ("plank", 4)] n) ->
     make_goal_checker [("plank", 4)] state' =
     make_goal_checker [("plank", 4)] [("wood", 4); ("plank", 4)]).
Proof.
  apply (is_goal_true_iff_enough [("plank", 4)] [("wood", 4); ("plank", 4)]).
  intros n a [[= <- <-]|[]]. simpl. tauto.
Defined.

(** C10.  [check] and [is_goal] index the state.  When the state lacks
    an item and every lookup made before that item passes its test, the
    call raises the KeyError of the item; it does not answer false. *)
Theorem missing_item_raises_KeyError (state : State)
    (pre post : list (string * Z)) (n : string) (a : Z) :
  ~ In n (keys state) -> meets state pre ->
  (forall rule, thresholds rule = (pre ++ (n, a) :: post) ->
      make_checker rule state = Raise (KeyError n)) /\
  make_goal_checker (pre ++ (n, a) :: post) state = Raise (KeyError n).
Proof.
  intros Hn Hpre. split.
  - intros rule Hrule. rewrite make_checker_thresholds, Hrule.
    now apply check_amounts_missing.
  - now apply check_amounts_missing.
Qed.

Lemma missing_item_raises_KeyError_witness :
  make_checker (mkRule (Some [("wood", 1)]) (Some ["bench"]) [("plank", 4)] 1)
               [("wood", 5); ("plank", 0)] = Raise (KeyError "bench") /\
  make_checker (mkRule (Some [("wood", 1); ("coal", 1)]) None [] 1)
               [("wood", 5); ("plank", 0)] = Raise (KeyError "coal") /\
  make_goal_checker [("wood", 1); ("bench", 1)] [("wood", 5); ("plank", 0)]
    = Raise (KeyError "bench").
Proof.
  assert (Hmeets : meets [("wood", 5); ("plank", 0)] [("wood", 1)]).
  { intros k c [[= <- <-]|[]]. exists 5. split; [reflexivity|lia]. }
  assert (Hbench : ~ In "bench" (keys [("wood", 5); ("plank", 0)])).
  { simpl. intros [H|[H|[]]]; discriminate. }
  assert (Hcoal : ~ In "coal" (keys [("wood", 5); ("plank", 0)])).
  { simpl. intros [H|[H|[]]]; discriminate. }
  destruct (missing_item_raises_KeyError
              [("wood", 5); ("plank", 0)] [("wood", 1)] [] "bench" 1
              Hbench Hmeets) as [Hcheck Hgoal].
  destruct (missing_item_raises_KeyError
              [("wood", 5); ("plank", 0)] [("wood", 1)] [] "coal" 1
              Hcoal Hmeets) as [Hcheck' _].
  split; [apply Hcheck; reflexivity|].
  split; [apply Hcheck'; reflexivity|exact Hgoal].
Defined.

(** ** The effect of a rule *)

Lemma amount_in (c : list (string * Z)) (n : string) (a : Z) :
  List.NoDup (map fst c) -> In (n, a) c -> amount c n = a.
Proof.
  intros Hnd Hin. unfold amount.
  now rewrite (getitem_unique c n a Hnd Hin).
Qed.

Lemma amount_not_in (c : list (string * Z)) (n : string) :
  ~ In n (map fst c) -> amount c n = 0.
Proof.
  intros Hn. unfold amount. now rewrite (getitem_not_in c n Hn).
Qed.

Lemma update_app (pre d : State) :
  List.NoDup (keys d) -> (forall k, In k (keys d) -> ~ In k (keys pre)) ->
  update pre d = (pre ++ d).
Proof.
  revert pre. induction d as [|[k v] d IH]; intros pre Hnd Hdis; simpl.
  - now rewrite app_nil_r.
  - simpl in Hnd. apply List.NoDup_cons_iff in Hnd as [Hk Hnd].
    assert (Hset : setitem pre k v = (pre ++ [(k, v)])).
    { assert (Hout : ~ In k (keys pre)) by (apply Hdis; now left).
      clear - Hout. induction pre as [|[k' w] pre IH]; simpl; [reflexivity|].
      simpl in Hout. destruct (String.eqb_spec k' k) as [->|Hne]; [tauto|].
      f_equal. apply IH. tauto. }
    rewrite Hset. rewrite IH; [now rewrite <- app_assoc|assumption|].
    intros k0 Hk0 Hin. unfold keys in Hin. rewrite map_app in Hin.
    apply in_app_or in Hin as [Hin|[<-|[]]].
    + apply (Hdis k0); [now right|assumption].
    + contradiction.
Qed.

Lemma update_nil (d : State) : List.NoDup (keys d) -> update [] d = d.
Proof. intros Hnd. now rewrite update_app. Qed.

(** [copy] allocates one object with the items of [self]. *)
Lemma State_copy_spec (self : ref) (d : State) (w : world) :
  heap w !! self = Some d -> List.NoDup (keys d) ->
  State_copy self w =
  Ret (length (heap w)) (mkWorld (heap w ++ [d]) (ticks w)).
Proof.
  intros Hself Hnd.
  unfold State_copy, State_update, State_new, deref, assign.
  unfold mbind, M_bind, mret, M_ret. simpl.
  rewrite (lookup_app_l_Some _ _ _ _ Hself). cbn [heap ticks].
  rewrite list_lookup_middle by reflexivity. cbn [heap ticks].
  rewrite update_nil by assumption.
  do 2 f_equal.
  replace (length (heap w)) with (length (heap w) + 0)%nat at 1 by lia.
  now rewrite insert_app_r.
Qed.

(** The two assignment loops of [effect], on the object [obj]. *)
Lemma for_each_adjust (f : Z -> Z -> Z) (obj : ref) (c : list (string * Z)) :
  forall (d : State) (w : world),
    heap w !! obj = Some d ->
    for_each c (fun '(name, amount) =>
                  q ← obj_getitem obj name;
                  obj_setitem obj name (f q amount)) w =
    match adjust f d c with
    | Ok d' => Ret tt (mkWorld (<[obj := d']> (heap w)) (ticks w))
    | Raise e => Exc e
    end.
Proof.
  induction c as [|[n a] c IH]; intros d w Hobj; cbn [for_each adjust].
  - unfold mret, M_ret. rewrite (list_insert_id _ _ _ Hobj). now destruct w.
  - unfold mbind, M_bind, obj_getitem, obj_setitem, deref, assign, lift.
    unfold mbind, M_bind. rewrite Hobj.
    destruct (getitem d n) as [q|e]; cbn [rbind]; [|reflexivity].
    rewrite Hobj.
    assert (Hobj' : heap (mkWorld (<[obj := setitem d n (f q a)]> (heap w))
                                  (ticks w)) !! obj
                    = Some (setitem d n (f q a))).
    { cbn [heap]. apply list_lookup_insert_eq.
      now apply lookup_lt_Some in Hobj. }
    etransitivity; [exact (IH _ _ Hobj')|]. cbn [heap ticks].
    destruct (adjust f (setitem d n (f q a)) c); [|reflexivity].
    now rewrite list_insert_insert_eq.
Qed.

Lemma adjust_spec (f : Z -> Z -> Z) (c : list (string * Z)) :
  forall d : State,
    List.NoDup (map fst c) ->
    (forall n a, In (n, a) c -> In n (keys d)) ->
    exists d', adjust f d c = Ok d' /\ keys d' = keys d /\
      forall n q, getitem d n = Ok q ->
        getitem d' n = Ok (match getitem c n with
                           | Ok a => f q a
                           | Raise _ => q
                           end).
Proof.
  induction c as [|[m a] c IH]; intros d Hnd Hin; simpl.
  - exists d. auto.
  - simpl in Hnd. apply List.NoDup_cons_iff in Hnd as [Hm Hnd].
    destruct (getitem_in d m) as [qm Hqm]; [apply (Hin m a); now left|].
    rewrite Hqm. simpl.
    assert (Hkeys : keys (setitem d m (f qm a)) = keys d).
    { apply keys_setitem_in. apply (Hin m a). now left. }
    destruct (IH (setitem d m (f qm a)) Hnd) as (d' & Hd' & Hk & Hget).
    { intros n b Hn. rewrite Hkeys. apply (Hin n b). now right. }
    exists d'. split; [assumption|]. split; [congruence|].
    intros n q Hq. destruct (String.eqb_spec m n) as [->|Hne].
    + rewrite (Hget n (f qm a)).
      * rewrite (getitem_not_in c n Hm). congruence.
      * rewrite getitem_setitem. now rewrite String.eqb_refl.
    + apply Hget. rewrite getitem_setitem.
      destruct (String.eqb_spec m n); [contradiction|assumption].
Qed.

Lemma insert_last (l : list State) (x y : State) :
  <[length l := x]> (l ++ [y]) = (l ++ [x]).
Proof.
  replace (length l) with (length l + 0)%nat by lia.
  now rewrite insert_app_r.
Qed.

Lemma bind_run {A B} (m : M A) (k : A -> M B) (w : world) :
  (m ≫= k) w = match m w with
               | Ret a w' => k a w'
               | Exc e => Exc e
               | OutOfFuel => OutOfFuel
               end.
Proof. reflexivity. Qed.

(** [effect] allocates one object; its items are those of the input
    after the Consumes loop and the Produces loop. *)
Lemma make_effector_items (rule : Rule) (state : ref) (d : State) (w : world) :
  heap w !! state = Some d -> List.NoDup (keys d) ->
  make_effector rule state w =
  match rbind (adjust Z.sub d (clause (Consumes rule)))
              (fun d1 => adjust Z.add d1 (Produces rule)) with
  | Ok d' => Ret (length (heap w)) (mkWorld (heap w ++ [d']) (ticks w))
  | Raise e => Exc e
  end.
Proof.
  intros Hstate Hnd. unfold make_effector.
  rewrite bind_run, (State_copy_spec state d w Hstate Hnd).
  set (w1 := mkWorld (heap w ++ [d]) (ticks w)).
  assert (H1 : heap w1 !! length (heap w) = Some d)
    by (now apply list_lookup_middle).
  rewrite bind_run.
  assert (Hc : match Consumes rule with
               | Some c =>
                   for_each c (fun '(name, amount) =>
                     q ← obj_getitem (length (heap w)) name;
                     obj_setitem (length (heap w)) name (q - amount))
               | None => mret tt
               end w1 =
               match adjust Z.sub d (clause (Consumes rule)) with
               | Ok d1 => Ret tt (mkWorld (heap w ++ [d1]) (ticks w))
               | Raise e => Exc e
               end).
  { destruct (Consumes rule) as [c|]; cbn [clause adjust]; [|reflexivity].
    rewrite (for_each_adjust Z.sub _ c d w1 H1).
    destruct (adjust Z.sub d c); [|reflexivity].
    subst w1. cbn [heap ticks]. now rewrite insert_last. }
  rewrite Hc. clear Hc.
  destruct (adjust Z.sub d (clause (Consumes rule))) as [d1|e];
    cbn [rbind]; [|reflexivity].
  rewrite bind_run.
  set (w2 := mkWorld (heap w ++ [d1]) (ticks w)).
  assert (H2 : heap w2 !! length (heap w) = Some d1)
    by (now apply list_lookup_middle).
  rewrite (for_each_adjust Z.add _ (Produces rule) d1 w2 H2).
  destruct (adjust Z.add d1 (Produces rule)); [|reflexivity].
  subst w2. cbn [heap ticks]. now rewrite insert_last.
Qed.

Lemma effect_quantities (rule : Rule) (state : ref) (d : State) (w : world) :
  heap w !! state = Some d ->
  List.NoDup (keys d) ->
  List.NoDup (map fst (clause (Consumes rule))) ->
  List.NoDup (map fst (Produces rule)) ->
  (forall n, In n (rule_items rule) -> In n (keys d)) ->
  exists d' : State,
    make_effector rule state w =
      Ret (length (heap w)) (mkWorld (heap w ++ [d']) (ticks w)) /\
    keys d' = keys d /\
    forall n q, getitem d n = Ok q ->
      getitem d' n =
      Ok (q - amount (clause (Consumes rule)) n + amount (Produces rule) n).
Proof.
  intros Hstate Hnd Hc Hp Hin.
  destruct (adjust_spec Z.sub (clause (Consumes rule)) d Hc)
    as (d1 & Hd1 & Hk1 & Hget1).
  { intros n a H. apply Hin. unfold rule_items. apply in_or_app. left.
    apply in_map_iff. exists (n, a). auto. }
  destruct (adjust_spec Z.add (Produces rule) d1 Hp)
    as (d2 & Hd2 & Hk2 & Hget2).
  { intros n a H. rewrite Hk1. apply Hin. unfold rule_items.
    apply in_or_app. right. apply in_or_app. right.
    apply in_map_iff. exists (n, a). auto. }
  exists d2. split.
  { rewrite (make_effector_items rule state d w Hstate Hnd), Hd1.
    cbn [rbind]. now rewrite Hd2. }
  split; [congruence|].
  intros n q Hq. rewrite (Hget2 n _ (Hget1 n q Hq)). unfold amount.
  destruct (getitem (clause (Consumes rule)) n),
           (getitem (Produces rule) n); f_equal; lia.
Qed.

(** C4.  On a state that has every item the rule names, [effect]
    returns a new State object with the keys of the input, in which the
    quantity of every item is that of the input, less the amount the
    rule consumes of it, plus the amount the rule produces of it; an
    item the rule neither consumes nor produces (one it only requires,
    say) keeps its quantity.  No object of the store is changed: the
    input has the items it had. *)
Theorem effect_new_state (rule : Rule) (state : ref) (d : State) (w : world) :
  heap w !! state = Some d ->
  List.NoDup (keys d) ->
  List.NoDup (map fst (clause (Consumes rule))) ->
  List.NoDup (map fst (Produces rule)) ->
  (forall n, In n (rule_items rule) -> In n (keys d)) ->
  exists (next_state : ref) (w' : world) (d' : State),
    make_effector rule state w = Ret next_state w' /\
    heap w !! next_state = None /\
    heap w' !! next_state = Some d' /\
    keys d' = keys d /\
    (forall n q, getitem d n = Ok q ->
       getitem d' n =
       Ok (q - amount (clause (Consumes rule)) n + amount (Produces rule) n)) /\
    (forall n a, In (n, a) (clause (Consumes rule)) ->
       amount (clause (Consumes rule)) n = a) /\
    (forall n a, In (n, a) (Produces rule) -> amount (Produces rule) n = a) /\
    (forall n q, getitem d n = Ok q ->
       ~ In n (map fst (clause (Consumes rule))) ->
       ~ In n (map fst (Produces rule)) ->
       getitem d' n = Ok q) /\
    heap w' !! state = Some d /\
    (forall r x, heap w !! r = Some x -> heap w' !! r = Some x).
Proof.
  intros Hstate Hnd Hc Hp Hin.
  destruct (effect_quantities rule state d w Hstate Hnd Hc Hp Hin)
    as (d2 & Hrun & Hk & Hquant).
  exists (length (heap w)), (mkWorld (heap w ++ [d2]) (ticks w)), d2.
  split; [exact Hrun|].
  split; [now apply lookup_ge_None_2|].
  split; [now apply list_lookup_middle|].
  split; [exact Hk|].
  split; [exact Hquant|].
  split; [intros n a H; now apply amount_in|].
  split; [intros n a H; now apply amount_in|].
  split.
  { intros n q Hq Hnc Hnp. rewrite (Hquant n q Hq).
    rewrite !amount_not_in by assumption. f_equal. lia. }
  split; [now apply lookup_app_l_Some|].
  intros r x Hr. now apply lookup_app_l_Some.
Qed.

Lemma effect_new_state_witness :
  exists (next_state : ref) (w' : world) (d' : State),
    make_effector (mkRule (Some [("wood", 1)]) (Some ["bench"]) [("plank", 4)] 1)
                  0%nat (mkWorld [[("wood", 5); ("bench", 1); ("plank", 0)]] 0)
      = Ret next_state w' /\
    heap w' !! next_state = Some d' /\
    getitem d' "wood" = Ok 4 /\ getitem d' "bench" = Ok 1 /\
    getitem d' "plank" = Ok 4 /\
    heap w' !! 0%nat = Some [("wood", 5); ("bench", 1); ("plank", 0)].
Proof.
  destruct (effect_new_state
              (mkRule (Some [("wood", 1)]) (Some ["bench"]) [("plank", 4)] 1)
              0%nat [("wood", 5); ("bench", 1); ("plank", 0)]
              (mkWorld [[("wood", 5); ("bench", 1); ("plank", 0)]] 0))
    as (r & w' & d' & Hrun & _ & Hd' & _ & Hq & _ & _ & _ & Hin & _).
  - reflexivity.
  - simpl. repeat constructor; simpl; intuition discriminate.
  - simpl. repeat constructor; simpl; intuition discriminate.
  - simpl. repeat constructor; simpl; intuition discriminate.
  - intros n H. simpl in H. simpl. tauto.
  - exists r, w', d'. split; [exact Hrun|]. split; [exact Hd'|].
    split; [exact (Hq "wood" 5 eq_refl)|].
    split; [exact (Hq "bench" 1 eq_refl)|].
    split; [exact (Hq "plank" 0 eq_refl)|exact Hin].
Defined.

(** C6 (as amended).  When [check] is true on a state that has every
    item the rule names, [effect] gives every Consumes item the
    quantity [q - a + p], where [q] is its quantity in the input, [a] the
    amount consumed and [p] the amount the rule produces of it: [q - a]
    is not negative, and so is the new quantity whenever [p] is not
    negative. *)
Theorem check_guards_consumption (rule : Rule) (state : ref) (d : State)
    (w : world) :
  heap w !! state = Some d ->
  List.NoDup (keys d) ->
  List.NoDup (map fst (clause (Consumes rule))) ->
  List.NoDup (map fst (Produces rule)) ->
  (forall n, In n (rule_items rule) -> In n (keys d)) ->
  make_checker rule d = Ok true ->
  exists (next_state : ref) (w' : world) (d' : State),
    make_effector rule state w = Ret next_state w' /\
    heap w' !! next_state = Some d' /\
    forall n a, In (n, a) (clause (Consumes rule)) ->
      exists q q',
        getitem d n = Ok q /\ 0 <= q - a /\
        getitem d' n = Ok q' /\
        q' = q - a + amount (Produces rule) n /\
        (0 <= amount (Produces rule) n -> 0 <= q').
Proof.
  intros Hstate Hnd Hc Hp Hin Hcheck.
  destruct (effect_quantities rule state d w Hstate Hnd Hc Hp Hin)
    as (d' & Hrun & Hk & Hquant).
  exists (length (heap w)), (mkWorld (heap w ++ [d']) (ticks w)), d'.
  split; [exact Hrun|]. split; [now apply list_lookup_middle|].
  intros n a Hna.
  assert (Hmeets : meets d (thresholds rule)).
  { rewrite make_checker_thresholds in Hcheck.
    destruct (check_amounts_present d (thresholds rule)) as [b [Hb Hiff]].
    - intros m c H. apply Hin. unfold thresholds in H. unfold rule_items.
      apply in_app_or in H as [H|H].
      + apply in_or_app. left. apply in_map_iff. exists (m, c). auto.
      + apply in_or_app. right. apply in_or_app. left.
        apply in_map_iff in H as [k [[= -> <-] Hm]]. assumption.
    - apply Hiff. congruence. }
  destruct (Hmeets n a) as [q [Hq Hle]].
  { unfold thresholds. apply in_or_app. now left. }
  exists q, (q - a + amount (Produces rule) n).
  split; [exact Hq|]. split; [lia|].
  split; [rewrite (Hquant n q Hq); now rewrite (amount_in _ n a Hc Hna)|].
  split; [reflexivity|lia].
Qed.

Lemma check_guards_consumption_witness :
  exists (next_state : ref) (w' : world) (d' : State),
    make_effector (mkRule (Some [("wood", 1)]) None [("plank", 4)] 1)
                  0%nat (mkWorld [[("wood", 1); ("plank", 0)]] 0)
      = Ret next_state w' /\
    heap w' !! next_state = Some d' /\
    forall n a, In (n, a) [("wood", 1)] ->
      exists q q',
        getitem [("wood", 1); ("plank", 0)] n = Ok q /\ 0 <= q - a /\
        getitem d' n = Ok q' /\
        q' = q - a + amount [("plank", 4)] n /\
        (0 <= amount [("plank", 4)] n -> 0 <= q').
Proof.
  apply (check_guards_consumption
           (mkRule (Some [("wood", 1)]) None [("plank", 4)] 1)
           0%nat [("wood", 1); ("plank", 0)]
           (mkWorld [[("wood", 1); ("plank", 0)]] 0)).
  - reflexivity.
  - simpl. repeat constructor; simpl; intuition discriminate.
  - simpl. repeat constructor; simpl; intuition discriminate.
  - simpl. repeat constructor; simpl; intuition discriminate.
  - intros n H. simpl in H. simpl. tauto.
  - reflexivity.
Defined.

(** C6 (as stated) fails for a rule that produces a negative amount of an
    item it consumes: the state has one [a] and no negative quantity,
    [check] is true, and [effect] leaves [a] at -5. *)
Lemma consumption_counterexample :
  make_checker (mkRule (Some [("a", 1)]) None [("a", -5)] 1) [("a", 1)]
    = Ok true /\
  Forall (fun item => 0 <= snd item) [("a", 1)] /\
  make_effector (mkRule (Some [("a", 1)]) None [("a", -5)] 1)
                0%nat (mkWorld [[("a", 1)]] 0)
    = Ret 1%nat (mkWorld [[("a", 1)]; [("a", -5)]] 0) /\
  In ("a", 1) (clause (Consumes (mkRule (Some [("a", 1)]) None [("a", -5)] 1))) /\
  getitem [("a", -5)] "a" = Ok (-5).
Proof.
  split; [reflexivity|]. split; [repeat constructor; simpl; lia|].
  split; [reflexivity|]. split; [now left|reflexivity].
Qed.

(** ** The rule-building loop *)

(** C9 (as stated) fails: the rule [saw] names the unknown item [ghost]
    and costs -3; the loop builds its Recipe, cost included, and the
    KeyError is raised by the search, at the first expansion.  A negative
    cost alone is never reported: the search returns a plan. *)
Lemma compilation_counterexample :
  map name (build_rules (Recipes malformed_domain)) = ["saw"] /\
  map cost (build_rules (Recipes malformed_domain)) = [-3] /\
  main (fun _ => 0) 10 malformed_domain empty_world = Exc (KeyError "ghost") /\
  map cost (build_rules (Recipes negative_cost_domain)) = [-3] /\
  main (fun _ => 0) 10 negative_cost_domain empty_world =
    Ret (Some [([("wood", 5); ("plank", 0)], "chop");
               ([("wood", 4); ("plank", 4)], "complete")])
        (mkWorld [[("wood", 5); ("plank", 0)]; [("wood", 4); ("plank", 4)]] 5).
Proof. repeat split; vm_compute; reflexivity. Qed.

(** ** Dicts keyed by states *)

Lemma obj_eqb_true (h : list State) (a b : ref) :
  obj_eqb h a b = true <-> exists x, h !! a = Some x /\ h !! b = Some x.
Proof.
  unfold obj_eqb. destruct (h !! a) as [x|], (h !! b) as [y|].
  - rewrite State_eqb_eq. split.
    + intros ->. eauto.
    + intros (z & [= ->] & [= ->]). reflexivity.
  - split; [discriminate|]. intros (z & _ & [=]).
  - split; [discriminate|]. intros (z & [=] & _).
  - split; [discriminate|]. intros (z & [=] & _).
Qed.

Lemma obj_eqb_refl (h : list State) (a : ref) :
  is_Some (h !! a) -> obj_eqb h a a = true.
Proof. intros [x Hx]. apply obj_eqb_true. eauto. Qed.

Lemma obj_eqb_trans (h : list State) (a b c : ref) :
  obj_eqb h a b = true -> obj_eqb h a c = true -> obj_eqb h b c = true.
Proof.
  rewrite !obj_eqb_true. intros (x & Ha & Hb) (y & Ha' & Hc).
  exists x. split; congruence.
Qed.

Lemma dict_get_set_same {V} (h : list State) (d : list (ref * V)) (k : ref) (v : V) :
  is_Some (h !! k) -> dict_get h (dict_set h d k v) k = Some v.
Proof.
  intros Hk. induction d as [|[k' v'] d IH]; simpl.
  - now rewrite obj_eqb_refl.
  - destruct (obj_eqb h k' k) eqn:E; simpl; rewrite E; [reflexivity|exact IH].
Qed.

Lemma dict_get_set_other {V} (h : list State) (d : list (ref * V))
    (k k0 : ref) (v : V) :
  obj_eqb h k k0 = false ->
  dict_get h (dict_set h d k v) k0 = dict_get h d k0.
Proof.
  intros Hne. induction d as [|[k' v'] d IH]; simpl.
  - now rewrite Hne.
  - destruct (obj_eqb h k' k) eqn:E; simpl.
    + destruct (obj_eqb h k' k0) eqn:E0; [|reflexivity].
      now rewrite (obj_eqb_trans h k' k k0 E E0) in Hne.
    + destruct (obj_eqb h k' k0); [reflexivity|exact IH].
Qed.

(** ** One expansion *)

(** The expansion loop over the rules: a rule whose [check] is true
    yields its successor to the body, a rule whose [check] is false is
    skipped. *)
Lemma graph_yields (r : Recipe) (rest : list Recipe) (current : ref)
    (d : State) (A : Type) (body : succ -> A -> M A) (acc : A) (w : world) :
  heap w !! current = Some d ->
  graph (r :: rest) current A body acc w =
  match check r d with
  | Ok true =>
      (next ← effect r current;
       acc' ← body (name r, next, cost r) acc;
       graph rest current A body acc') w
  | Ok false => graph rest current A body acc w
  | Raise e => Exc e
  end.
Proof.
  intros Hcur. unfold graph. cbn [graph_from].
  rewrite bind_run. unfold deref. rewrite Hcur. rewrite bind_run.
  unfold lift. destruct (check r d) as [[]|e]; try reflexivity.
  rewrite !bind_run. destruct (effect r current w) as [next w1| |];
    try reflexivity.
Qed.

Lemma graph_dangling (rs : list Recipe) (r : Recipe) (current : ref)
    (A : Type) (body : succ -> A -> M A) (acc : A) (w : world) :
  heap w !! current = None ->
  graph (r :: rs) current A body acc w = Exc SystemError.
Proof.
  intros Hcur. unfold graph. cbn [graph_from]. rewrite bind_run.
  unfold deref. now rewrite Hcur.
Qed.

Lemma State_copy_run (self : ref) (d : State) (w : world) :
  heap w !! self = Some d ->
  State_copy self w =
  Ret (length (heap w)) (mkWorld (heap w ++ [update [] d]) (ticks w)).
Proof.
  intros Hself.
  unfold State_copy, State_update, State_new, deref, assign.
  unfold mbind, M_bind, mret, M_ret. simpl.
  rewrite (lookup_app_l_Some _ _ _ _ Hself). cbn [heap ticks].
  rewrite list_lookup_middle by reflexivity. cbn [heap ticks].
  do 2 f_equal. apply insert_last.
Qed.

Lemma make_effector_allocates (rule : Rule) (state : ref) (d : State)
    (w w1 : world) (next : ref) :
  heap w !! state = Some d ->
  make_effector rule state w = Ret next w1 ->
  is_Some (heap w1 !! next).
Proof.
  intros Hstate. unfold make_effector.
  rewrite bind_run, (State_copy_run state d w Hstate).
  set (w0 := mkWorld (heap w ++ [update [] d]) (ticks w)).
  assert (H0 : heap w0 !! length (heap w) = Some (update [] d))
    by (now apply list_lookup_middle).
  rewrite bind_run.
  assert (Hc : exists o,
             match Consumes rule with
             | Some c =>
                 for_each c (fun '(name, amount) =>
                   q ← obj_getitem (length (heap w)) name;
                   obj_setitem (length (heap w)) name (q - amount))
             | None => mret tt
             end w0 = o /\
             match o with
             | Ret _ w2 => exists d1, heap w2 !! length (heap w) = Some d1
             | _ => True
             end).
  { destruct (Consumes rule) as [c|].
    - eexists. split; [apply (for_each_adjust Z.sub _ c _ w0 H0)|].
      destruct (adjust Z.sub (update [] d) c); [|exact I].
      eexists. cbn [heap]. apply list_lookup_insert_eq.
      now apply lookup_lt_Some in H0.
    - eexists. split; [reflexivity|]. cbn [mret M_ret]. eauto. }
  destruct Hc as (o & -> & Ho). destruct o as [[] w2| |]; try discriminate.
  destruct Ho as [d1 H2]. rewrite bind_run.
  rewrite (for_each_adjust Z.add _ (Produces rule) d1 w2 H2).
  destruct (adjust Z.add d1 (Produces rule)) as [d2|]; [|discriminate].
  cbn [mret M_ret]. intros [= <- <-]. cbn [heap]. exists d2.
  apply list_lookup_insert_eq. now apply lookup_lt_Some in H2.
Qed.

Lemma improves_test (h : list State) (cost : list (ref * Z)) (next : ref)
    (new_cost : Z) :
  match dict_get h cost next with
  | Some old => new_cost <? old
  | None => true
  end = true <-> improves h cost next new_cost.
Proof.
  unfold improves. destruct (dict_get h cost next) as [old|].
  - rewrite Z.ltb_lt. split.
    + intros H. right. eauto.
    + intros [H|(o & [= <-] & H)]; [discriminate|assumption].
  - split; auto.
Qed.

Lemma relax_relaxes (heuristic : State -> result num) (current : ref)
    (nm : string) (next : ref) (action_cost : Z) (fr fr' : frame)
    (w w' : world) :
  is_Some (heap w !! next) ->
  relax heuristic current (nm, next, action_cost) fr w = Ret fr' w' ->
  w' = w /\
  relaxes heuristic (heap w) current (nm, next, action_cost) fr fr'.
Proof.
  intros Hnext. unfold relax. rewrite bind_run. cbn [get_heap].
  destruct (dict_get (heap w) (cost_so_far fr) current) as [c|] eqn:Hc;
    [|discriminate].
  rewrite bind_run. cbn [mret M_ret].
  pose proof (improves_test (heap w) (cost_so_far fr) next (action_cost + c))
    as Htest.
  destruct (match dict_get (heap w) (cost_so_far fr) next with
            | Some old => action_cost + c <? old
            | None => true
            end).
  - rewrite bind_run. unfold deref.
    destruct (heap w !! current) as [d|] eqn:Hcur; [|discriminate].
    rewrite bind_run. unfold lift at 1.
    destruct (heuristic d) as [hv|e] eqn:Hh; [|discriminate].
    rewrite bind_run. unfold lift at 1.
    destruct (num_add (Fin (action_cost + c)) hv) as [priority|e] eqn:Hadd;
      [|discriminate].
    intros [= <- <-]. split; [reflexivity|].
    cbn [relaxes]. exists c. split; [exact Hc|]. split.
    + intros _. exists d, hv, priority.
      cbn [cost_so_far came_from_dict frontier].
      repeat (split; [first [assumption | reflexivity
                            | now apply dict_get_set_same]|]).
      intros k Hk. split; now apply dict_get_set_other.
    + intros Hno. exfalso. apply Hno, Htest. reflexivity.
  - intros [= <- <-]. split; [reflexivity|].
    cbn [relaxes]. exists c. split; [exact Hc|]. split.
    + intros Himp. apply Htest in Himp. discriminate.
    + reflexivity.
Qed.

Lemma relaxes_relax (heuristic : State -> result num) (current : ref)
    (nm : string) (next : ref) (action_cost : Z) (fr fr' : frame) (w : world) :
  relaxes heuristic (heap w) current (nm, next, action_cost) fr fr' ->
  relax heuristic current (nm, next, action_cost) fr w = Ret fr' w.
Proof.
  cbn [relaxes]. intros (c & Hc & Himp & Hno).
  unfold relax. rewrite bind_run. cbn [get_heap]. rewrite Hc.
  rewrite bind_run. cbn [mret M_ret].
  pose proof (improves_test (heap w) (cost_so_far fr) next (action_cost + c))
    as Htest.
  destruct (match dict_get (heap w) (cost_so_far fr) next with
            | Some old => action_cost + c <? old
            | None => true
            end).
  - destruct Himp as (d & hv & priority & Hcur & Hh & Hadd & -> & _);
      [now apply Htest|].
    rewrite bind_run. unfold deref. rewrite Hcur. rewrite bind_run.
    unfold lift at 1. rewrite Hh. rewrite bind_run. unfold lift.
    now rewrite Hadd.
  - rewrite Hno; [reflexivity|]. intros H. apply Htest in H. discriminate.
Qed.

Lemma graph_expands (heuristic : State -> result num) (current : ref)
    (recipes : list (string * Rule)) :
  forall (fr : frame) (w : world) (fr' : frame) (w' : world),
    graph (build_rules recipes) current frame (relax heuristic current) fr w
      = Ret fr' w' <->
    expands heuristic current recipes fr w fr' w'.
Proof.
  induction recipes as [|[nm rule] rs IH]; intros fr w fr' w'.
  - split.
    + intros [= <- <-]. constructor.
    + intros H. inversion H. reflexivity.
  - cbn [build_rules map]. fold (build_rules rs). split.
    + destruct (heap w !! current) as [d|] eqn:Hcur.
      2: { now rewrite graph_dangling. }
      rewrite (graph_yields _ _ _ d) by assumption. cbn [check effect name cost].
      destruct (make_checker rule d) as [[]|e] eqn:Hcheck; [| |discriminate].
      * rewrite bind_run.
        destruct (make_effector rule current w) as [next w1| |] eqn:Heff;
          try discriminate.
        rewrite bind_run.
        destruct (relax heuristic current (nm, next, Time rule) fr w1)
          as [fr1 w1'| |] eqn:Hrelax; try discriminate.
        apply relax_relaxes in Hrelax as [-> Hrel];
          [|exact (make_effector_allocates _ _ _ _ _ _ Hcur Heff)].
        intros H. apply IH in H.
        exact (expands_yield _ _ _ _ _ _ _ _ _ _ _ _ _ Hcur Hcheck Heff Hrel H).
      * intros H. apply IH in H.
        exact (expands_skip _ _ _ _ _ _ _ _ _ _ Hcur Hcheck H).
    + intros H. inversion H as [|? ? ? ? ? ? ? d Hcur Hcheck Hrest
                                 |? ? ? ? ? d next w1 fr1 ? ? Hcur Hcheck Heff
                                    Hrel Hrest]; subst.
      * rewrite (graph_yields _ _ _ d) by assumption. cbn [check].
        rewrite Hcheck. now apply IH.
      * rewrite (graph_yields _ _ _ d) by assumption.
        cbn [check effect name cost]. rewrite Hcheck.
        rewrite bind_run, Heff. rewrite bind_run.
        rewrite (relaxes_relax _ _ _ _ _ _ _ _ Hrel). now apply IH.
Qed.

(** C1.  An expansion of the search pops a state [current] that is not
    a goal and goes on with the frame that the loop over
    [graph(current)] leaves.  That loop returns a frame exactly when the
    rules, in their order, are handled as [expands] says: for every
    successor [(name, next, action_cost)] yielded, the loop body takes
    [new_cost = action_cost + cost_so_far[current]] and, when [next] has
    no recorded cost or [new_cost] is less than the recorded one, records
    [new_cost] for [next], records [(current, name)] as its predecessor
    and pushes [next] with the priority [new_cost + heuristic(current)],
    the heuristic being called on the current state; otherwise it leaves
    the frame as it is. *)
Theorem expansion_relaxes_every_successor (clock : nat -> Z)
    (recipes : list (string * Rule)) (state : ref)
    (is_goal : State -> result bool) (heuristic : State -> result num)
    (n : nat) (fr : frame) (w : world) (prio : num) (current : ref)
    (rest : list entry) (d : State) :
  heappop (heap w) (frontier fr) = Some ((prio, current), rest) ->
  heap w !! current = Some d ->
  is_goal d = Ok false ->
  explore clock (graph (build_rules recipes)) state is_goal heuristic (S n)
          fr w =
    (fr' ← graph (build_rules recipes) current frame (relax heuristic current)
            (mkFrame rest (came_from_dict fr) (cost_so_far fr));
     explore clock (graph (build_rules recipes)) state is_goal heuristic n fr')
      (mkWorld (heap w) (S (ticks w))) /\
  forall (fr' : frame) (w' : world),
    graph (build_rules recipes) current frame (relax heuristic current)
          (mkFrame rest (came_from_dict fr) (cost_so_far fr))
          (mkWorld (heap w) (S (ticks w))) = Ret fr' w' <->
    expands heuristic current recipes
            (mkFrame rest (came_from_dict fr) (cost_so_far fr))
            (mkWorld (heap w) (S (ticks w))) fr' w'.
Proof.
  intros Hpop Hcur Hgoal. split; [|intros fr' w'; apply graph_expands].
  cbn [explore]. destruct (frontier fr) as [|e0 rest0]; [discriminate Hpop|].
  rewrite bind_run. cbn [get_heap]. rewrite Hpop.
  rewrite bind_run. cbn [pop_event]. rewrite bind_run. unfold deref.
  cbn [heap ticks]. rewrite Hcur. rewrite bind_run. unfold lift.
  rewrite Hgoal. reflexivity.
Qed.

Lemma expansion_relaxes_every_successor_witness :
  exists (fr' : frame) (w' : world),
    expands (fun _ => Ok (Fin 15)) 0%nat (Recipes scenario_A)
            (mkFrame [] [(0%nat, None)] [(0%nat, 0)])
            (mkWorld [[("wood", 5); ("plank", 0)]] 3) fr' w' /\
    frontier fr' = [(Fin 16, 1%nat)] /\
    cost_so_far fr' = [(0%nat, 0); (1%nat, 1)] /\
    came_from_dict fr' = [(0%nat, None); (1%nat, Some (0%nat, "chop"))] /\
    heap w' = [[("wood", 5); ("plank", 0)]; [("wood", 4); ("plank", 4)]].
Proof.
  destruct (expansion_relaxes_every_successor (fun _ => 0) (Recipes scenario_A)
              0%nat (make_goal_checker (Goal_ scenario_A))
              (fun _ => Ok (Fin 15)) 1
              (mkFrame [(Fin 0, 0%nat)] [(0%nat, None)] [(0%nat, 0)])
              (mkWorld [[("wood", 5); ("plank", 0)]] 2) (Fin 0) 0%nat []
              [("wood", 5); ("plank", 0)] eq_refl eq_refl eq_refl)
    as [_ Hiff].
  eexists _, _. split; [apply Hiff; vm_compute; reflexivity|].
  repeat split.
Defined.

(** ** The search loops *)

Section SearchFacts.
Variable clock : nat -> Z.
Variable graph : generator.
Variable state : ref.
Variable is_goal : State -> result bool.
Variable limit : Z.
Variable heuristic : State -> result num.

Lemma walk_reaches_state (fuel : nat)
    (cfd : list (ref * option (ref * string))) :
  forall (came_from : ref) (ret_list l : plan) (w w' : world),
    walk state fuel cfd came_from ret_list w = Ret l w' ->
    w' = w /\
    exists suffix,
      l = ret_list ++ suffix /\
      obj_eqb (heap w)
              (match last suffix with
               | Some (s, _) => s
               | None => came_from
               end) state = true.
Proof.
  induction fuel as [|n IH]; intros came_from ret_list l w w'; cbn [walk];
    destruct (obj_eqb (heap w) came_from state) eqn:E.
  - intros [= <- <-]. split; [reflexivity|]. exists [].
    now rewrite app_nil_r.
  - discriminate.
  - intros [= <- <-]. split; [reflexivity|]. exists [].
    now rewrite app_nil_r.
  - destruct (dict_get (heap w) cfd came_from) as [[[prev a]|]|];
      try discriminate.
    intros H. apply IH in H as (-> & suffix & -> & Hlast).
    split; [reflexivity|]. exists ((prev, a) :: suffix).
    split; [now rewrite <- app_assoc|].
    destruct suffix as [|x suffix]; [exact Hlast|].
    rewrite last_cons. destruct (last (x :: suffix)) as [[s b]|] eqn:El.
    + exact Hlast.
    + now rewrite last_None in El.
Qed.

Lemma explore_whole_plan (fuel : nat) :
  forall (fr : frame) (w w' : world) (p : plan),
    explore clock graph state is_goal heuristic fuel fr w = Ret (Some p) w' ->
    whole_plan (heap w') state is_goal p.
Proof.
  induction fuel as [|n IH]; intros fr w w' p; cbn [explore];
    destruct (frontier fr) as [|e0 rest0] eqn:Ef; try discriminate.
  rewrite bind_run. cbn [get_heap].
  destruct (heappop (heap w) (e0 :: rest0)) as [[[prio current] rest]|];
    [|discriminate].
  rewrite bind_run. cbn [pop_event]. rewrite bind_run. unfold deref.
  cbn [heap ticks].
  destruct (heap w !! current) as [d|] eqn:Hcur; [|discriminate].
  rewrite bind_run. unfold lift.
  destruct (is_goal d) as [[]|e] eqn:Hgoal; [| |discriminate].
  - rewrite bind_run.
    destruct (dict_get (heap w) (cost_so_far fr) current); [|discriminate].
    cbn [mret M_ret]. rewrite bind_run.
    destruct (walk state n (came_from_dict fr) current
                   [(current, "complete")] _) as [l w1| |] eqn:Hwalk;
      try discriminate.
    apply walk_reaches_state in Hwalk as (-> & suffix & -> & Hlast).
    rewrite bind_run. cbn [time heap ticks]. intros [= <- <-].
    cbn [heap] in *.
    destruct (rev suffix) as [|[s0 a0] tl] eqn:Erev.
    + apply (f_equal (@rev _)) in Erev. rewrite rev_involutive in Erev.
      subst suffix. cbn [last] in Hlast. cbn [app].
      exists current, "complete", [], current, d.
      repeat split; assumption.
    + assert (Hs : suffix = rev tl ++ [(s0, a0)]).
      { apply (f_equal (@rev _)) in Erev. rewrite rev_involutive in Erev.
        exact Erev. }
      subst suffix. rewrite last_snoc in Hlast.
      exists s0, a0, (tl ++ [(current, "complete")]), current, d.
      split; [reflexivity|]. split; [exact Hlast|].
      split; [|split; assumption].
      change ((s0, a0) :: tl ++ [(current, "complete")])
        with (((s0, a0) :: tl) ++ [(current, "complete")]).
      apply last_snoc.
  - rewrite bind_run.
    destruct (graph current frame _ _ _) as [fr' w1| |]; try discriminate.
    apply IH.
Qed.

Lemma restart_whole_plan (fuel : nat) (start_time : Z) :
  forall (w w' : world) (p : plan),
    restart clock graph state is_goal limit heuristic fuel start_time w
      = Ret (Some p) w' ->
    whole_plan (heap w') state is_goal p.
Proof.
  induction fuel as [|n IH]; intros w w' p; cbn [restart]; [discriminate|].
  rewrite bind_run. cbn [time].
  destruct (clock (ticks w) - start_time <? limit).
  - rewrite bind_run. cbn [get_heap]. rewrite bind_run.
    destruct (explore clock graph state is_goal heuristic n _ _)
      as [[q|] w1| |] eqn:Hex; try discriminate.
    + cbn [mret M_ret]. intros [= <- <-].
      apply (explore_whole_plan _ _ _ _ _ Hex).
    + apply IH.
  - rewrite bind_run. cbn [time mret M_ret]. discriminate.
Qed.

Lemma restart_past_deadline (fuel : nat) (start_time : Z) (w : world) :
  limit <= clock (ticks w) - start_time ->
  restart clock graph state is_goal limit heuristic (S fuel) start_time w
    = Ret None (mkWorld (heap w) (S (S (ticks w)))).
Proof.
  intros Hlate. cbn [restart]. rewrite bind_run. cbn [time].
  destruct (Z.ltb_spec (clock (ticks w) - start_time) limit); [lia|].
  reflexivity.
Qed.
End SearchFacts.

Lemma restart_None_deadline (clock : nat -> Z) (graph : generator)
    (state : ref) (is_goal : State -> result bool) (limit : Z)
    (heuristic : State -> result num) (fuel : nat) (start_time : Z) :
  forall w w' : world,
    restart clock graph state is_goal limit heuristic fuel start_time w
      = Ret None w' ->
    exists t : nat, ticks w' = S (S t) /\ limit <= clock t - start_time.
Proof.
  induction fuel as [|n IH]; intros w w'; cbn [restart]; [discriminate|].
  rewrite bind_run. cbn [time].
  destruct (Z.ltb_spec (clock (ticks w) - start_time) limit) as [Hlt|Hge].
  - rewrite bind_run. cbn [get_heap]. rewrite bind_run.
    destruct (explore clock graph state is_goal heuristic n _ _)
      as [[q|] w1| |]; try discriminate.
    apply IH.
  - rewrite bind_run. cbn [time mret M_ret heap ticks].
    intros [= <-]. exists (ticks w). auto.
Qed.

(** C8 (as amended).  The deadline is tested at the head of the outer
    loop only.  When a test finds the budget used up, [search] returns
    None, and raises nothing; a None is returned in no other way.
    Whatever [search] returns besides None is a whole plan, from the
    initial state to a state of the goal. *)
Theorem search_None_or_whole_plan (clock : nat -> Z) (graph : generator)
    (state : ref) (is_goal : State -> result bool) (limit : Z)
    (heuristic : State -> result num) (fuel : nat) (w : world) :
  (forall start_time,
      limit <= clock (ticks w) - start_time ->
      restart clock graph state is_goal limit heuristic (S fuel) start_time w
        = Ret None (mkWorld (heap w) (S (S (ticks w))))) /\
  (limit <= clock (S (ticks w)) - clock (ticks w) ->
   search clock graph state is_goal limit heuristic (S fuel) w
     = Ret None (mkWorld (heap w) (S (S (S (ticks w)))))) /\
  (forall w',
      search clock graph state is_goal limit heuristic fuel w = Ret None w' ->
      exists t : nat,
        ticks w' = S (S t) /\ limit <= clock t - clock (ticks w)) /\
  (forall p w',
      search clock graph state is_goal limit heuristic fuel w
        = Ret (Some p) w' ->
      whole_plan (heap w') state is_goal p).
Proof.
  split; [intros st H; now apply restart_past_deadline|].
  split.
  { intros H. unfold search. rewrite bind_run. cbn [time].
    now rewrite restart_past_deadline. }
  split.
  - intros w'. unfold search. rewrite bind_run. cbn [time].
    apply restart_None_deadline.
  - intros p w'. unfold search. rewrite bind_run. cbn [time].
    apply restart_whole_plan.
Qed.

Lemma search_None_or_whole_plan_witness :
  search (fun n => 10 * Z.of_nat n) (graph []) 0%nat (fun _ => Ok false) 5
         (fun _ => Ok (Fin 15)) 1 (mkWorld [[("wood", 5)]] 0)
    = Ret None (mkWorld [[("wood", 5)]] 3).
Proof.
  destruct (search_None_or_whole_plan
              (fun n => 10 * Z.of_nat n) (graph []) 0%nat (fun _ => Ok false)
              5 (fun _ => Ok (Fin 15)) 0 (mkWorld [[("wood", 5)]] 0))
    as (_ & H & _).
  apply H. cbn [ticks]. lia.
Defined.

(** C8 (as stated) fails: with [late_clock] the first test of the
    deadline passes at time 0 and every later event, the pops of the
    frontier among them, happens at time 100, past the budget of 5; the
    search goes on and returns a plan. *)
Lemma deadline_counterexample :
  late_clock 1 - late_clock 0 < 5 /\
  (forall n, (2 <= n)%nat -> 5 <= late_clock n - late_clock 0) /\
  main late_clock 10 scenario_A empty_world =
    Ret (Some [([("wood", 5); ("plank", 0)], "chop");
               ([("wood", 4); ("plank", 4)], "complete")])
        (mkWorld [[("wood", 5); ("plank", 0)]; [("wood", 4); ("plank", 4)]] 5).
Proof.
  split; [reflexivity|]. split; [|vm_compute; reflexivity].
  intros n Hn. unfold late_clock.
  destruct (Nat.ltb_spec n 2); [lia|]. simpl. lia.
Qed.

(** ** The plan of scenario A *)

(** C2 (the code departs from it).  On scenario A the search returns
    two pairs: the initial state with ["chop"], the rule applied to it,
    and the state reached with ["complete"].  The first action is the name
    of a rule and the marker stands in the last pair: every action is one
    pair earlier than the state it produced. *)
Theorem scenario_A_plan :
  main (fun _ => 0) 10 scenario_A empty_world =
    Ret (Some [([("wood", 5); ("plank", 0)], "chop");
               ([("wood", 4); ("plank", 4)], "complete")])
        (mkWorld [[("wood", 5); ("plank", 0)]; [("wood", 4); ("plank", 4)]] 5).
Proof. vm_compute. reflexivity. Qed.

(** * Further properties of the code *)

(** ** The order of States *)

Lemma ascii_compare_refl (a : Ascii.ascii) : Ascii.compare a a = Eq.
Proof. unfold Ascii.compare. apply N.compare_refl. Qed.

Lemma ascii_compare_lt_trans (a b c : Ascii.ascii) :
  Ascii.compare a b = Lt -> Ascii.compare b c = Lt -> Ascii.compare a c = Lt.
Proof.
  unfold Ascii.compare. rewrite !N.compare_lt_iff. apply N.lt_trans.
Qed.

Lemma string_compare_refl (s : string) : String.compare s s = Eq.
Proof.
  induction s as [|a s IH]; simpl; [reflexivity|].
  now rewrite ascii_compare_refl.
Qed.

Lemma string_compare_lt_trans (s1 : string) :
  forall s2 s3 : string,
    String.compare s1 s2 = Lt -> String.compare s2 s3 = Lt ->
    String.compare s1 s3 = Lt.
Proof.
  induction s1 as [|a s1 IH]; intros [|b s2] [|c s3]; simpl;
    try discriminate; try reflexivity.
  destruct (Ascii.compare a b) eqn:Eab; try discriminate.
  - apply Ascii.compare_eq_iff in Eab. subst b.
    destruct (Ascii.compare a c); try discriminate; [apply IH|reflexivity].
  - intros _. destruct (Ascii.compare b c) eqn:Ebc; try discriminate.
    + apply Ascii.compare_eq_iff in Ebc. subst c. now rewrite Eab.
    + intros _. now rewrite (ascii_compare_lt_trans a b c Eab Ebc).
Qed.

Lemma string_ltb_irrefl (s : string) : String.ltb s s = false.
Proof. unfold String.ltb. now rewrite string_compare_refl. Qed.

Lemma string_ltb_asym (s t : string) :
  String.ltb s t = true -> String.ltb t s = false.
Proof.
  unfold String.ltb. rewrite (String.compare_antisym t s).
  destruct (String.compare s t); simpl; congruence.
Qed.

Lemma string_ltb_total (s t : string) :
  s <> t -> String.ltb s t = true \/ String.ltb t s = true.
Proof.
  intros Hne. unfold String.ltb. rewrite (String.compare_antisym t s).
  destruct (String.compare s t) eqn:E; simpl; auto.
  apply String.compare_eq_iff in E. contradiction.
Qed.

Lemma string_ltb_trans (s t u : string) :
  String.ltb s t = true -> String.ltb t u = true -> String.ltb s u = true.
Proof.
  unfold String.ltb.
  destruct (String.compare s t) eqn:E1; try discriminate.
  destruct (String.compare t u) eqn:E2; try discriminate.
  now rewrite (string_compare_lt_trans s t u E1 E2).
Qed.

Lemma item_ltb_irrefl (a : string * Z) : item_ltb a a = false.
Proof.
  unfold item_ltb. rewrite String.eqb_refl. apply Z.ltb_irrefl.
Qed.

Lemma item_ltb_asym (a b : string * Z) :
  item_ltb a b = true -> item_ltb b a = false.
Proof.
  destruct a as [k v], b as [k' v']. unfold item_ltb. simpl.
  rewrite (String.eqb_sym k' k).
  destruct (String.eqb_spec k k') as [->|Hne].
  - rewrite Z.ltb_lt, Z.ltb_ge. lia.
  - apply string_ltb_asym.
Qed.

Lemma item_ltb_total (a b : string * Z) :
  item_eqb a b = false -> item_ltb a b = true \/ item_ltb b a = true.
Proof.
  destruct a as [k v], b as [k' v']. unfold item_eqb, item_ltb. simpl.
  rewrite (String.eqb_sym k' k).
  destruct (String.eqb_spec k k') as [->|Hne]; simpl.
  - rewrite Z.eqb_neq, !Z.ltb_lt. lia.
  - intros _. now apply string_ltb_total.
Qed.

Lemma item_ltb_trans (a b c : string * Z) :
  item_ltb a b = true -> item_ltb b c = true -> item_ltb a c = true.
Proof.
  destruct a as [k1 v1], b as [k2 v2], c as [k3 v3]. unfold item_ltb. simpl.
  destruct (String.eqb_spec k1 k2) as [->|H12];
    destruct (String.eqb_spec k2 k3) as [->|H23].
  - rewrite !Z.ltb_lt. lia.
  - intros _ H. exact H.
  - destruct (String.eqb_spec k1 k3); [contradiction|]. intros H _. exact H.
  - intros Ha Hb. pose proof (string_ltb_trans _ _ _ Ha Hb) as Hac.
    destruct (String.eqb_spec k1 k3) as [->|H13]; [|exact Hac].
    now rewrite string_ltb_irrefl in Hac.
Qed.

Lemma State_ltb_irrefl (a : State) : State_ltb a a = false.
Proof.
  unfold State_ltb, State_key. induction a as [|x a IH]; simpl; [reflexivity|].
  now rewrite (proj2 (item_eqb_eq x x) eq_refl).
Qed.

Lemma State_ltb_asym (a : State) :
  forall b : State, State_ltb a b = true -> State_ltb b a = false.
Proof.
  unfold State_ltb, State_key.
  induction a as [|x a IH]; intros [|y b]; simpl; try congruence.
  destruct (item_eqb x y) eqn:E.
  - apply item_eqb_eq in E. subst y.
    rewrite (proj2 (item_eqb_eq x x) eq_refl). apply IH.
  - intros H. destruct (item_eqb y x) eqn:E'.
    + apply item_eqb_eq in E'. subst y.
      now rewrite (proj2 (item_eqb_eq x x) eq_refl) in E.
    + now apply item_ltb_asym.
Qed.

Lemma State_ltb_total (a : State) :
  forall b : State,
    State_eqb a b = false -> State_ltb a b = true \/ State_ltb b a = true.
Proof.
  unfold State_ltb, State_eqb, State_key.
  induction a as [|x a IH]; intros [|y b]; simpl; try discriminate; auto.
  destruct (item_eqb x y) eqn:E; simpl.
  - apply item_eqb_eq in E. subst y.
    rewrite (proj2 (item_eqb_eq x x) eq_refl). apply IH.
  - intros _. destruct (item_eqb y x) eqn:E'.
    + apply item_eqb_eq in E'. subst y.
      now rewrite (proj2 (item_eqb_eq x x) eq_refl) in E.
    + now apply item_ltb_total.
Qed.

Lemma State_ltb_trans (a : State) :
  forall b c : State,
    State_ltb a b = true -> State_ltb b c = true -> State_ltb a c = true.
Proof.
  unfold State_ltb, State_key.
  induction a as [|x a IH]; intros [|y b] [|z c]; simpl;
    try discriminate; try reflexivity.
  destruct (item_eqb x y) eqn:Exy.
  - apply item_eqb_eq in Exy. subst y.
    destruct (item_eqb x z); [apply IH|auto].
  - intros Hxy. destruct (item_eqb y z) eqn:Eyz.
    + apply item_eqb_eq in Eyz. subst z. now rewrite Exy.
    + intros Hyz. pose proof (item_ltb_trans _ _ _ Hxy Hyz) as Hxz.
      destruct (item_eqb x z) eqn:Exz; [|exact Hxz].
      apply item_eqb_eq in Exz. subst z.
      now rewrite item_ltb_irrefl in Hxz.
Qed.

(** X1.  [__lt__] is a strict total order on States that agrees with
    [__eq__]: no State is less than itself, of two States that are not
    equal exactly one is less than the other, and the order is
    transitive.  Two frontier entries of the same priority are thus
    always ordered the same way. *)
Theorem State_lt_strict_total_order :
  (forall a : State, State_ltb a a = false) /\
  (forall a b : State, State_ltb a b = true -> State_ltb b a = false) /\
  (forall a b : State, State_ltb a b = true -> State_eqb a b = false) /\
  (forall a b : State,
      State_eqb a b = false -> State_ltb a b = true \/ State_ltb b a = true) /\
  (forall a b c : State,
      State_ltb a b = true -> State_ltb b c = true -> State_ltb a c = true).
Proof.
  split; [apply State_ltb_irrefl|].
  split; [intros a; apply State_ltb_asym|].
  split.
  { intros a b Hlt. destruct (State_eqb a b) eqn:E; [|reflexivity].
    apply State_eqb_eq in E. subst b. now rewrite State_ltb_irrefl in Hlt. }
  split; [intros a; apply State_ltb_total|intros a; apply State_ltb_trans].
Qed.

Lemma State_lt_strict_total_order_witness :
  State_ltb [("wood", 4); ("plank", 4)] [("wood", 5); ("plank", 0)] = true /\
  State_ltb [("wood", 5); ("plank", 0)] [("wood", 4); ("plank", 4)] = false.
Proof.
  destruct State_lt_strict_total_order as (_ & Hasym & _ & Htotal & _).
  destruct (Htotal [("wood", 4); ("plank", 4)] [("wood", 5); ("plank", 0)]
              eq_refl) as [H|H].
  - split; [exact H|]. apply Hasym. exact H.
  - discriminate H.
Defined.

(** ** Copies of a State *)

(** X2.  [copy] returns a new object that is equal to [self] and has
    its hash; every object the store had keeps its items, and an
    assignment to the copy leaves [self] as it was. *)
Theorem State_copy_independent (self : ref) (d : State) (w : world) :
  heap w !! self = Some d ->
  List.NoDup (keys d) ->
  exists (new_state : ref) (w' : world),
    State_copy self w = Ret new_state w' /\
    heap w !! new_state = None /\
    obj_eqb (heap w') new_state self = true /\
    (forall hash, State_hash hash <$> heap w' !! new_state
                  = State_hash hash <$> heap w' !! self) /\
    (forall r x, heap w !! r = Some x -> heap w' !! r = Some x) /\
    (forall name v, exists w'',
        obj_setitem new_state name v w' = Ret tt w'' /\
        heap w'' !! new_state = Some (setitem d name v) /\
        heap w'' !! self = Some d).
Proof.
  intros Hself Hnd.
  exists (length (heap w)), (mkWorld (heap w ++ [d]) (ticks w)).
  assert (Hnew : (heap w ++ [d]) !! length (heap w) = Some d)
    by (now apply list_lookup_middle).
  assert (Hold : (heap w ++ [d]) !! self = Some d)
    by (now apply lookup_app_l_Some).
  split; [now apply State_copy_spec|].
  split; [now apply lookup_ge_None_2|].
  cbn [heap].
  split; [apply obj_eqb_true; eauto|].
  split; [intros hash; now rewrite Hnew, Hold|].
  split; [intros r x Hr; now apply lookup_app_l_Some|].
  intros name v.
  exists (mkWorld (<[length (heap w) := setitem d name v]> (heap w ++ [d]))
                  (ticks w)).
  split.
  { unfold obj_setitem. rewrite bind_run. unfold deref. cbn [heap].
    now rewrite Hnew. }
  cbn [heap]. rewrite insert_last.
  split; [now apply list_lookup_middle|now apply lookup_app_l_Some].
Qed.

Lemma State_copy_independent_witness :
  exists (new_state : ref) (w' : world),
    State_copy 0%nat (mkWorld [[("wood", 5); ("plank", 0)]] 0)
      = Ret new_state w' /\
    obj_eqb (heap w') new_state 0%nat = true /\
    exists w'',
      obj_setitem new_state "wood" 4 w' = Ret tt w'' /\
      heap w'' !! new_state = Some [("wood", 4); ("plank", 0)] /\
      heap w'' !! 0%nat = Some [("wood", 5); ("plank", 0)].
Proof.
  destruct (State_copy_independent 0%nat [("wood", 5); ("plank", 0)]
              (mkWorld [[("wood", 5); ("plank", 0)]] 0))
    as (r & w' & Hrun & _ & Heq & _ & _ & Hset).
  - reflexivity.
  - simpl. repeat constructor; simpl; intuition discriminate.
  - exists r, w'. split; [exact Hrun|]. split; [exact Heq|].
    exact (Hset "wood" 4).
Defined.

(** ** The initial state of the main program *)

Lemma getitem_update (l : list (string * Z)) :
  forall (d : State) (n : string),
    List.NoDup (map fst l) ->
    getitem (update d l) n =
    match getitem l n with
    | Ok a => Ok a
    | Raise _ => getitem d n
    end.
Proof.
  induction l as [|[k v] l IH]; intros d n Hnd; [reflexivity|].
  simpl in Hnd. apply List.NoDup_cons_iff in Hnd as [Hk Hnd].
  unfold update in *. cbn [fold_left fst snd getitem].
  rewrite (IH _ n Hnd). rewrite getitem_setitem.
  destruct (String.eqb_spec k n) as [->|Hne]; [|reflexivity].
  now rewrite (getitem_not_in l n Hk).
Qed.

Lemma keys_update_in (l : list (string * Z)) :
  forall (d : State) (n : string),
    In n (keys (update d l)) <-> In n (keys d) \/ In n (map fst l).
Proof.
  induction l as [|[k v] l IH]; intros d n.
  - simpl. tauto.
  - unfold update in *. cbn [fold_left fst snd map]. rewrite IH.
    destruct (in_dec string_dec k (keys d)) as [Hin|Hout].
    + rewrite keys_setitem_in by assumption. simpl. split; [tauto|].
      intros [H|[<-|H]]; auto.
    + rewrite keys_setitem_new by assumption. rewrite in_app_iff. simpl.
      tauto.
Qed.

Lemma keys_update_subset (l : list (string * Z)) :
  forall d : State,
    (forall n, In n (map fst l) -> In n (keys d)) ->
    keys (update d l) = keys d.
Proof.
  induction l as [|[k v] l IH]; intros d Hsub; [reflexivity|].
  unfold update in *. cbn [fold_left fst snd].
  assert (Hk : keys (setitem d k v) = keys d)
    by (apply keys_setitem_in; apply Hsub; now left).
  rewrite IH; [exact Hk|]. intros n Hn. rewrite Hk. apply Hsub. now right.
Qed.

Lemma getitem_zeros (items : list string) (n : string) :
  In n items -> getitem (map (fun key => (key, 0)) items) n = Ok 0.
Proof.
  induction items as [|k items IH]; simpl; [tauto|].
  intros H. destruct (String.eqb_spec k n) as [->|Hne]; [reflexivity|].
  apply IH. destruct H; [contradiction|assumption].
Qed.

(** X3.  The state the main program starts from has no key twice; its
    keys are the declared items and the items of the initial inventory,
    and nothing else.  Every such item has the amount the inventory
    gives for it, 0 when the inventory does not list it.  When the
    inventory lists declared items only and no item is declared twice,
    the keys are the declared items in their order. *)
Theorem initial_state_items (c : Crafting) :
  List.NoDup (map fst (Initial c)) ->
  List.NoDup (keys (initial_state c)) /\
  (forall n, In n (keys (initial_state c)) <->
             In n (Items c) \/ In n (map fst (Initial c))) /\
  (forall n, In n (Items c) \/ In n (map fst (Initial c)) ->
             getitem (initial_state c) n = Ok (amount (Initial c) n)) /\
  (List.NoDup (Items c) ->
   (forall n, In n (map fst (Initial c)) -> In n (Items c)) ->
   keys (initial_state c) = Items c).
Proof.
  intros Hnd. unfold initial_state.
  set (zeros := map (fun key => (key, 0)) (Items c)).
  assert (Hzk : forall n, In n (keys (State_init zeros)) <-> In n (Items c)).
  { intros n. unfold State_init. rewrite keys_update_in. subst zeros.
    rewrite map_map. simpl. rewrite map_id. simpl. tauto. }
  split; [apply NoDup_keys_update, NoDup_keys_State_init|].
  split; [intros n; now rewrite keys_update_in, Hzk|].
  split.
  - intros n Hn. rewrite getitem_update by assumption. unfold amount.
    destruct (getitem (Initial c) n) as [a|e] eqn:E; [reflexivity|].
    destruct Hn as [Hn|Hn].
    + apply Hzk in Hn. destruct (getitem_in _ _ Hn) as [q Hq].
      rewrite Hq. f_equal.
      apply getitem_Ok_in in Hq. unfold State_init in Hq.
      assert (Hall : forall d, (forall x, In x d -> snd x = 0) ->
                forall x, In x (update d zeros) -> snd x = 0).
      { subst zeros. clear. induction (Items c) as [|k l IH]; intros d Hd x;
          [apply Hd|].
        unfold update in *. cbn [map fold_left fst snd]. apply IH.
        clear x. intros x Hx. induction d as [|[k' v'] d IHd].
        - destruct Hx as [<-|[]]. reflexivity.
        - simpl in Hx. destruct (String.eqb k' k).
          + destruct Hx as [<-|Hx]; [reflexivity|]. apply Hd. now right.
          + destruct Hx as [<-|Hx]; [apply Hd; now left|].
            apply IHd; [|assumption]. intros y Hy. apply Hd. now right. }
      apply (Hall [] (fun x (H : In x []) => match H with end) (n, q) Hq).
    + exfalso. apply in_map_iff in Hn as [[k v] [Hk Hin]]. simpl in Hk.
      subst k. destruct (getitem_in (Initial c) n) as [q Hq].
      * unfold keys. apply in_map_iff. exists (n, v). auto.
      * congruence.
  - intros Hitems Hsub. rewrite keys_update_subset.
    + unfold State_init. rewrite update_nil.
      * subst zeros. unfold keys. rewrite map_map. simpl. apply map_id.
      * subst zeros. unfold keys. rewrite map_map. simpl.
        now rewrite map_id.
    + intros n Hn. apply Hzk. now apply Hsub.
Qed.

Lemma initial_state_items_witness :
  keys (initial_state scenario_A) = ["wood"; "plank"] /\
  getitem (initial_state scenario_A) "wood" = Ok 5 /\
  getitem (initial_state scenario_A) "plank" = Ok 0.
Proof.
  destruct (initial_state_items scenario_A) as (_ & _ & Hq & Hk).
  - simpl. repeat constructor; simpl; intuition discriminate.
  - split.
    + apply Hk.
      * simpl. repeat constructor; simpl; intuition discriminate.
      * simpl. tauto.
    + split; [apply (Hq "wood")|apply (Hq "plank")]; simpl; tauto.
Defined.

(** ** Monotonicity of the precondition and of the goal predicate *)

Lemma check_amounts_true_iff (state : State) (l : list (string * Z)) :
  check_amounts state l = Ok true <-> meets state l.
Proof.
  induction l as [|[n a] l IH]; simpl.
  - split; [intros _ n a []|reflexivity].
  - destruct (getitem state n) as [q|e] eqn:Hq; simpl.
    + destruct (Z.ltb_spec q a) as [Hlt|Hge].
      * split; [discriminate|]. intros Hm.
        destruct (Hm n a) as [q' [Hq' Hle]]; [now left|].
        rewrite Hq in Hq'. injection Hq' as <-. lia.
      * rewrite IH. split.
        -- intros Hm m b [[= -> ->]|Hin]; [eauto|auto].
        -- intros Hm m b Hin. apply Hm. now right.
    + split; [discriminate|]. intros Hm.
      destruct (Hm n a) as [q' [Hq' _]]; [now left|]. congruence.
Qed.

Lemma meets_monotone (s s' : State) (l : list (string * Z)) :
  (forall n q, In n (map fst l) -> getitem s n = Ok q ->
               exists q', getitem s' n = Ok q' /\ q <= q') ->
  meets s l -> meets s' l.
Proof.
  intros Hge Hm n a Hin. destruct (Hm n a Hin) as [q [Hq Hle]].
  destruct (Hge n q) as [q' [Hq' Hqq]]; [|assumption|].
  - apply in_map_iff. exists (n, a). auto.
  - exists q'. split; [assumption|lia].
Qed.

(** X4.  [is_goal] is monotone: when it is true of a state, it is true of
    every state that has at least as much of every goal item. *)
Theorem is_goal_monotone (goal : Goal) (s s' : State) :
  make_goal_checker goal s = Ok true ->
  (forall n q, In n (map fst goal) -> getitem s n = Ok q ->
               exists q', getitem s' n = Ok q' /\ q <= q') ->
  make_goal_checker goal s' = Ok true.
Proof.
  unfold make_goal_checker. rewrite !check_amounts_true_iff.
  intros Hm Hge. now apply (meets_monotone s s').
Qed.

Lemma is_goal_monotone_witness :
  make_goal_checker [("plank", 4)] [("wood", 0); ("plank", 9)] = Ok true.
Proof.
  apply (is_goal_monotone [("plank", 4)] [("wood", 4); ("plank", 4)]).
  - reflexivity.
  - intros n q [<-|[]] [= <-]. exists 9. split; [reflexivity|lia].
Defined.

(** X5.  [check] is monotone: a rule that applies to a state applies to
    every state that has at least as much of every item the rule
    consumes or requires. *)
Theorem check_monotone (rule : Rule) (s s' : State) :
  make_checker rule s = Ok true ->
  (forall n q, In n (map fst (thresholds rule)) -> getitem s n = Ok q ->
               exists q', getitem s' n = Ok q' /\ q <= q') ->
  make_checker rule s' = Ok true.
Proof.
  rewrite !make_checker_thresholds, !check_amounts_true_iff.
  intros Hm Hge. now apply (meets_monotone s s').
Qed.

Lemma check_monotone_witness :
  make_checker (mkRule (Some [("wood", 1)]) (Some ["bench"]) [("plank", 4)] 1)
               [("wood", 7); ("bench", 2); ("plank", 0)] = Ok true.
Proof.
  apply (check_monotone
           (mkRule (Some [("wood", 1)]) (Some ["bench"]) [("plank", 4)] 1)
           [("wood", 5); ("bench", 1); ("plank", 0)]).
  - reflexivity.
  - intros n q [<-|[<-|[]]] [= <-].
    + exists 7. split; [reflexivity|lia].
    + exists 2. split; [reflexivity|lia].
Defined.

(** ** Errors and composition of effects *)

Lemma adjust_keys (f : Z -> Z -> Z) (c : list (string * Z)) :
  forall d : State,
    (forall n, In n (map fst c) -> In n (keys d)) ->
    exists d', adjust f d c = Ok d' /\ keys d' = keys d.
Proof.
  induction c as [|[m a] c IH]; intros d Hin; simpl.
  - eauto.
  - destruct (getitem_in d m) as [q Hq]; [apply Hin; now left|].
    rewrite Hq. simpl.
    assert (Hk : keys (setitem d m (f q a)) = keys d)
      by (apply keys_setitem_in; apply Hin; now left).
    destruct (IH (setitem d m (f q a))) as (d' & Hd' & Hk').
    { intros n Hn. rewrite Hk. apply Hin. now right. }
    exists d'. split; [assumption|congruence].
Qed.

Lemma adjust_missing (f : Z -> Z -> Z) (pre post : list (string * Z))
    (n : string) (a : Z) (d : State) :
  (forall m, In m (map fst pre) -> In m (keys d)) ->
  ~ In n (keys d) ->
  adjust f d (pre ++ (n, a) :: post) = Raise (KeyError n).
Proof.
  revert d. induction pre as [|[m b] pre IH]; intros d Hpre Hn; simpl.
  - now rewrite getitem_not_in.
  - destruct (getitem_in d m) as [q Hq]; [apply Hpre; now left|].
    rewrite Hq. simpl.
    assert (Hk : keys (setitem d m (f q b)) = keys d)
      by (apply keys_setitem_in; apply Hpre; now left).
    apply IH; rewrite Hk; [|assumption].
    intros k Hk'. apply Hpre. now right.
Qed.

(** X6.  [effect] never adds a key: when the state lacks an item of the
    Consumes clause, or has all of them and lacks an item of the
    Produces clause, and the items named before it are there, the call
    raises the KeyError of that item. *)
Theorem effect_missing_item_raises_KeyError (rule : Rule) (state : ref)
    (d : State) (w : world) (pre post : list (string * Z)) (n : string) (a : Z) :
  heap w !! state = Some d ->
  List.NoDup (keys d) ->
  (forall m, In m (map fst pre) -> In m (keys d)) ->
  ~ In n (keys d) ->
  (clause (Consumes rule) = pre ++ (n, a) :: post ->
   make_effector rule state w = Exc (KeyError n)) /\
  ((forall m, In m (map fst (clause (Consumes rule))) -> In m (keys d)) ->
   Produces rule = pre ++ (n, a) :: post ->
   make_effector rule state w = Exc (KeyError n)).
Proof.
  intros Hstate Hnd Hpre Hn. split.
  - intros Hc. rewrite (make_effector_items rule state d w Hstate Hnd), Hc.
    now rewrite adjust_missing.
  - intros Hc Hp. rewrite (make_effector_items rule state d w Hstate Hnd).
    destruct (adjust_keys Z.sub (clause (Consumes rule)) d Hc)
      as (d1 & -> & Hk).
    cbn [rbind]. rewrite Hp, adjust_missing; [reflexivity| |];
      now rewrite Hk.
Qed.

Lemma effect_missing_item_raises_KeyError_witness :
  make_effector (mkRule (Some [("wood", 1)]) None [("plank", 4)] 1) 0%nat
                (mkWorld [[("wood", 5)]] 0) = Exc (KeyError "plank") /\
  make_effector (mkRule (Some [("coal", 1)]) None [("plank", 4)] 1) 0%nat
                (mkWorld [[("wood", 5)]] 0) = Exc (KeyError "coal").
Proof.
  assert (Hnd : List.NoDup (keys [("wood", 5)]))
    by (simpl; repeat constructor; simpl; tauto).
  split.
  - refine (proj2 (effect_missing_item_raises_KeyError
              (mkRule (Some [("wood", 1)]) None [("plank", 4)] 1) 0%nat
              [("wood", 5)] (mkWorld [[("wood", 5)]] 0) [] [] "plank" 4
              eq_refl Hnd _ _) _ eq_refl).
    + intros m [].
    + simpl. intros [H|[]]. discriminate.
    + simpl. tauto.
  - refine (proj1 (effect_missing_item_raises_KeyError
              (mkRule (Some [("coal", 1)]) None [("plank", 4)] 1) 0%nat
              [("wood", 5)] (mkWorld [[("wood", 5)]] 0) [] [] "coal" 1
              eq_refl Hnd _ _) eq_refl).
    + intros m [].
    + simpl. intros [H|[]]. discriminate.
Defined.

(** X7.  Effects commute: on a state that has the items of two rules,
    applying the first and then the second gives a State equal to the
    one given by applying the second and then the first. *)
Theorem effects_commute (r1 r2 : Rule) (state : ref) (d : State) (w : world) :
  heap w !! state = Some d ->
  List.NoDup (keys d) ->
  List.NoDup (map fst (clause (Consumes r1))) ->
  List.NoDup (map fst (Produces r1)) ->
  List.NoDup (map fst (clause (Consumes r2))) ->
  List.NoDup (map fst (Produces r2)) ->
  (forall n, In n (rule_items r1) -> In n (keys d)) ->
  (forall n, In n (rule_items r2) -> In n (keys d)) ->
  exists (s12 s21 : ref) (w12 w21 : world) (d12 d21 : State),
    (s1 ← make_effector r1 state; make_effector r2 s1) w = Ret s12 w12 /\
    (s2 ← make_effector r2 state; make_effector r1 s2) w = Ret s21 w21 /\
    heap w12 !! s12 = Some d12 /\
    heap w21 !! s21 = Some d21 /\
    State_eqb d12 d21 = true.
Proof.
  intros Hstate Hnd Hc1 Hp1 Hc2 Hp2 Hin1 Hin2.
  destruct (effect_quantities r1 state d w Hstate Hnd Hc1 Hp1 Hin1)
    as (d1 & Hrun1 & Hk1 & Hq1).
  destruct (effect_quantities r2 state d w Hstate Hnd Hc2 Hp2 Hin2)
    as (d2 & Hrun2 & Hk2 & Hq2).
  set (w1 := mkWorld (heap w ++ [d1]) (ticks w)) in *.
  set (w2 := mkWorld (heap w ++ [d2]) (ticks w)) in *.
  assert (H1 : heap w1 !! length (heap w) = Some d1)
    by (now apply list_lookup_middle).
  assert (H2 : heap w2 !! length (heap w) = Some d2)
    by (now apply list_lookup_middle).
  assert (Hnd1 : List.NoDup (keys d1)) by now rewrite Hk1.
  assert (Hnd2 : List.NoDup (keys d2)) by now rewrite Hk2.
  destruct (effect_quantities r2 (length (heap w)) d1 w1 H1 Hnd1 Hc2 Hp2)
    as (d12 & Hrun12 & Hk12 & Hq12); [now rewrite Hk1|].
  destruct (effect_quantities r1 (length (heap w)) d2 w2 H2 Hnd2 Hc1 Hp1)
    as (d21 & Hrun21 & Hk21 & Hq21); [now rewrite Hk2|].
  eexists _, _, _, _, d12, d21.
  split; [rewrite bind_run, Hrun1; exact Hrun12|].
  split; [rewrite bind_run, Hrun2; exact Hrun21|].
  split; [now apply list_lookup_middle|].
  split; [now apply list_lookup_middle|].
  apply State_eqb_eq. apply same_keys_same_items.
  - now rewrite Hk12.
  - congruence.
  - intros n. destruct (getitem d n) as [q|e] eqn:Hq.
    + rewrite (Hq12 n _ (Hq1 n q Hq)), (Hq21 n _ (Hq2 n q Hq)). f_equal. lia.
    + assert (Hout : ~ In n (keys d)).
      { intros Hin. destruct (getitem_in d n Hin). congruence. }
      rewrite !getitem_not_in; [reflexivity| |]; congruence.
Qed.

Lemma effects_commute_witness :
  exists (s12 s21 : ref) (w12 w21 : world) (d12 d21 : State),
    (s1 ← make_effector (mkRule (Some [("wood", 1)]) None [("plank", 4)] 1) 0%nat;
     make_effector (mkRule (Some [("plank", 2)]) None [("stick", 4)] 1) s1)
      (mkWorld [[("wood", 5); ("plank", 2); ("stick", 0)]] 0) = Ret s12 w12 /\
    (s2 ← make_effector (mkRule (Some [("plank", 2)]) None [("stick", 4)] 1) 0%nat;
     make_effector (mkRule (Some [("wood", 1)]) None [("plank", 4)] 1) s2)
      (mkWorld [[("wood", 5); ("plank", 2); ("stick", 0)]] 0) = Ret s21 w21 /\
    heap w12 !! s12 = Some d12 /\
    heap w21 !! s21 = Some d21 /\
    State_eqb d12 d21 = true.
Proof.
  apply (effects_commute
           (mkRule (Some [("wood", 1)]) None [("plank", 4)] 1)
           (mkRule (Some [("plank", 2)]) None [("stick", 4)] 1)
           0%nat [("wood", 5); ("plank", 2); ("stick", 0)]
           (mkWorld [[("wood", 5); ("plank", 2); ("stick", 0)]] 0)).
  - reflexivity.
  - simpl. repeat constructor; simpl; intuition discriminate.
  - simpl. repeat constructor; simpl; intuition discriminate.
  - simpl. repeat constructor; simpl; intuition discriminate.
  - simpl. repeat constructor; simpl; intuition discriminate.
  - simpl. repeat constructor; simpl; intuition discriminate.
  - intros n H. simpl in H. simpl. tauto.
  - intros n H. simpl in H. simpl. tauto.
Defined.

(** ** The reference heuristic *)

Lemma heuristic_items_value (recipe : option Recipe) (state : State)
    (items : list string) (v : num) :
  heuristic_items recipe state items = Ok v -> v = Fin 15.
Proof.
  induction items as [|item items IH]; simpl; [congruence|].
  destruct (getitem state item) as [q|e]; simpl; [|discriminate].
  destruct (q =? 0); [exact IH|].
  destruct recipe as [r|]; [|discriminate].
  destruct (String.eqb item (name r)); [discriminate|exact IH].
Qed.

Lemma heuristic_items_quiet (recipe : option Recipe) (state : State)
    (items : list string) :
  (forall n, In n items -> exists q, getitem state n = Ok q /\
     (q = 0 \/ exists r, recipe = Some r /\ n <> name r)) ->
  heuristic_items recipe state items = Ok (Fin 15).
Proof.
  induction items as [|item items IH]; intros H; simpl; [reflexivity|].
  destruct (H item) as (q & -> & Hq); [now left|]. simpl.
  assert (IH' : heuristic_items recipe state items = Ok (Fin 15))
    by (apply IH; intros n Hn; apply H; now right).
  destruct (Z.eqb_spec q 0) as [_|Hne]; [exact IH'|].
  destruct Hq as [Hq|(r & -> & Hr)]; [contradiction|].
  destruct (String.eqb_spec item (name r)); [contradiction|exact IH'].
Qed.

Lemma heuristic_items_TypeError (r : Recipe) (state : State)
    (items : list string) (q : Z) :
  (forall n, In n items -> In n (keys state)) ->
  In (name r) items -> getitem state (name r) = Ok q -> q <> 0 ->
  heuristic_items (Some r) state items = Raise TypeError.
Proof.
  intros Hsub Hin Hq Hne.
  induction items as [|item items IH]; simpl; [destruct Hin|].
  destruct (getitem_in state item) as [q' Hq']; [apply Hsub; now left|].
  rewrite Hq'. simpl.
  assert (IH' : In (name r) items ->
                heuristic_items (Some r) state items = Raise TypeError).
  { intros H. apply IH; [|exact H]. intros n Hn. apply Hsub. now right. }
  destruct (Z.eqb_spec q' 0) as [Hz|Hnz].
  - apply IH'. destruct Hin as [->|Hin]; [congruence|assumption].
  - destruct (String.eqb_spec item (name r)) as [_|Hdiff]; [reflexivity|].
    apply IH'. destruct Hin as [Heq|Hin]; [contradiction|assumption].
Qed.

Lemma heuristic_items_NameError (state : State) (items : list string)
    (n : string) (q : Z) :
  (forall m, In m items -> In m (keys state)) ->
  In n items -> getitem state n = Ok q -> q <> 0 ->
  heuristic_items None state items = Raise NameError.
Proof.
  intros Hsub Hin Hq Hne.
  induction items as [|item items IH]; simpl; [destruct Hin|].
  destruct (getitem_in state item) as [q' Hq']; [apply Hsub; now left|].
  rewrite Hq'. simpl.
  destruct (Z.eqb_spec q' 0) as [Hz|Hnz]; [|reflexivity].
  apply IH; [intros m Hm; apply Hsub; now right|].
  destruct Hin as [->|Hin]; [congruence|assumption].
Qed.

(** X8.  The reference heuristic returns no value but 15: the branches
    that return [inf] and [0] are never reached.  It returns 15 when the
    state holds nothing, and when it holds none of an item named like the
    Recipe built last; it raises a TypeError when the state holds such an
    item, and a NameError when the state holds something and no Recipe
    was built. *)
Theorem heuristic_15_or_raises (state : State) :
  (forall recipe v, heuristic recipe state = Ok v -> v = Fin 15) /\
  (forall recipe,
      (forall n q, getitem state n = Ok q -> q = 0) ->
      heuristic recipe state = Ok (Fin 15)) /\
  (forall r,
      (forall q, getitem state (name r) = Ok q -> q = 0) ->
      heuristic (Some r) state = Ok (Fin 15)) /\
  (forall r q,
      getitem state (name r) = Ok q -> q <> 0 ->
      heuristic (Some r) state = Raise TypeError) /\
  (forall n q,
      getitem state n = Ok q -> q <> 0 ->
      heuristic None state = Raise NameError).
Proof.
  unfold heuristic. split; [intros recipe v; apply heuristic_items_value|].
  split.
  { intros recipe Hzero. apply heuristic_items_quiet. intros n Hn.
    destruct (getitem_in state n Hn) as [q Hq]. exists q.
    split; [exact Hq|]. left. now apply (Hzero n). }
  split.
  { intros r Hzero. apply heuristic_items_quiet. intros n Hn.
    destruct (getitem_in state n Hn) as [q Hq]. exists q.
    split; [exact Hq|].
    destruct (string_dec n (name r)) as [->|Hne]; [left; auto|].
    right. eauto. }
  split.
  - intros r q Hq Hne. apply (heuristic_items_TypeError r state _ q); auto.
    now apply (getitem_Ok_keys state (name r) q).
  - intros n q Hq Hne. apply (heuristic_items_NameError state _ n q); auto.
    now apply (getitem_Ok_keys state n q).
Qed.

Lemma heuristic_15_or_raises_witness :
  heuristic (Some (mkRecipe "chop" (fun _ => Ok true) (fun s => mret s) 1))
            [("wood", 5); ("chop", 0)] = Ok (Fin 15) /\
  heuristic (Some (mkRecipe "chop" (fun _ => Ok true) (fun s => mret s) 1))
            [("wood", 5); ("chop", 2)] = Raise TypeError /\
  heuristic None [("wood", 5)] = Raise NameError.
Proof.
  split; [|split].
  - apply (proj1 (proj2 (proj2 (heuristic_15_or_raises
                                  [("wood", 5); ("chop", 0)])))).
    intros q [= <-]. reflexivity.
  - apply (proj1 (proj2 (proj2 (proj2 (heuristic_15_or_raises
                                         [("wood", 5); ("chop", 2)]))))
             _ 2); [reflexivity|lia].
  - apply (proj2 (proj2 (proj2 (proj2 (heuristic_15_or_raises
                                         [("wood", 5)]))))
             "wood" 5); [reflexivity|lia].
Defined.

(** ** The successors of a state *)

Lemma make_checker_bool (rule : Rule) (d : State) :
  (forall n, In n (rule_items rule) -> In n (keys d)) ->
  make_checker rule d = Ok (applies d rule).
Proof.
  intros Hin. unfold applies. rewrite make_checker_thresholds.
  destruct (check_amounts_present d (thresholds rule)) as [b [-> _]].
  - intros n a H. apply Hin. unfold thresholds in H. unfold rule_items.
    apply in_app_or in H as [H|H].
    + apply in_or_app. left. apply in_map_iff. exists (n, a). auto.
    + apply in_or_app. right. apply in_or_app. left.
      apply in_map_iff in H as [m [[= -> <-] Hm]]. assumption.
  - now destruct b.
Qed.

Lemma graph_from_collect (state : ref) (d : State)
    (recipes : list (string * Rule)) :
  List.NoDup (keys d) ->
  (forall nm rule, In (nm, rule) recipes -> closed_rule (keys d) rule) ->
  forall (acc : list succ) (w : world),
    heap w !! state = Some d ->
    exists news : list State,
      graph_from (build_rules recipes) state (list succ) collect acc w =
        Ret (acc ++ numbered (length (heap w)) (List.filter (fun r => applies d (snd r)) recipes))
            (mkWorld (heap w ++ news) (ticks w)) /\
      Forall2 (fun r d' => result_of d (snd r) d')
              (List.filter (fun r => applies d (snd r)) recipes) news.
Proof.
  intros Hnd. induction recipes as [|[nm rule] recipes IH];
    intros Hclosed acc w Hstate.
  - exists []. split; [|constructor]. cbn [build_rules map graph_from List.filter numbered].
    unfold mret, M_ret. rewrite !app_nil_r. now destruct w.
  - destruct (Hclosed nm rule) as (Hc & Hp & Hin); [now left|].
    assert (Hclosed' : forall nm' rule', In (nm', rule') recipes ->
                         closed_rule (keys d) rule')
      by (intros nm' rule' H; apply (Hclosed nm' rule'); now right).
    cbn [build_rules map graph_from List.filter snd].
    cbn [check effect name cost].
    rewrite bind_run. unfold deref at 1. rewrite Hstate.
    rewrite bind_run. unfold lift at 1.
    rewrite (make_checker_bool rule d Hin).
    destruct (applies d rule) eqn:Happ.
    + rewrite !bind_run.
      destruct (effect_quantities rule state d w Hstate Hnd Hc Hp Hin)
        as (d' & -> & Hk & Hq).
      unfold collect at 1. cbn [mret M_ret].
      set (w1 := mkWorld (heap w ++ [d']) (ticks w)).
      destruct (IH Hclosed' (acc ++ [(nm, length (heap w), Time rule)]) w1)
        as (news & Hrun & Hall).
      { subst w1. cbn [heap]. now apply lookup_app_l_Some. }
      exists (d' :: news). split.
      * etransitivity; [exact Hrun|]. subst w1. cbn [heap ticks].
        rewrite length_app. cbn [length numbered].
        replace (length (heap w) + 1)%nat with (S (length (heap w))) by lia.
        cbn [numbered]. now rewrite <- !app_assoc.
      * constructor; [split; assumption|exact Hall].
    + rewrite bind_run. cbn [mret M_ret]. apply IH; assumption.
Qed.

(** X9.  On a state that has the items of every rule, [graph] yields
    one successor for every rule whose [check] is true and none for the
    others, in the order of the rules, each with the name and the cost of
    its rule and a State object allocated for it.  The successor of a
    rule has the keys of the state and the quantities the rule gives;
    the objects the store had are not changed. *)
Theorem graph_yields_applicable_rules (recipes : list (string * Rule))
    (state : ref) (d : State) (w : world) :
  heap w !! state = Some d ->
  List.NoDup (keys d) ->
  (forall nm rule, In (nm, rule) recipes -> closed_rule (keys d) rule) ->
  exists news : list State,
    successors (build_rules recipes) state w =
      Ret (numbered (length (heap w))
                    (List.filter (fun r => applies d (snd r)) recipes))
          (mkWorld (heap w ++ news) (ticks w)) /\
    Forall2 (fun r d' => result_of d (snd r) d')
            (List.filter (fun r => applies d (snd r)) recipes) news /\
    (length news <= length recipes)%nat /\
    (forall r x, heap w !! r = Some x -> (heap w ++ news) !! r = Some x).
Proof.
  intros Hstate Hnd Hclosed.
  destruct (graph_from_collect state d recipes Hnd Hclosed [] w Hstate)
    as (news & Hrun & Hall).
  exists news. split; [exact Hrun|]. split; [exact Hall|]. split.
  - rewrite <- (Forall2_length _ _ _ Hall). apply List.filter_length_le.
  - intros r x Hr. now apply lookup_app_l_Some.
Qed.

Lemma graph_yields_applicable_rules_witness :
  exists news : list State,
    successors
      (build_rules [("chop", mkRule (Some [("wood", 1)]) None [("plank", 4)] 1);
                    ("burn", mkRule (Some [("plank", 9)]) None [("wood", 1)] 2);
                    ("plant", mkRule None None [("wood", 1)] 7)])
      0%nat (mkWorld [[("wood", 5); ("plank", 0)]] 0) =
      Ret [("chop", 1%nat, 1); ("plant", 2%nat, 7)]
          (mkWorld ([[("wood", 5); ("plank", 0)]] ++ news) 0) /\
    length news = 2%nat.
Proof.
  destruct (graph_yields_applicable_rules
              [("chop", mkRule (Some [("wood", 1)]) None [("plank", 4)] 1);
               ("burn", mkRule (Some [("plank", 9)]) None [("wood", 1)] 2);
               ("plant", mkRule None None [("wood", 1)] 7)]
              0%nat [("wood", 5); ("plank", 0)]
              (mkWorld [[("wood", 5); ("plank", 0)]] 0))
    as (news & Hrun & Hall & _).
  - reflexivity.
  - simpl. repeat constructor; simpl; intuition discriminate.
  - intros nm rule H. simpl in H.
    destruct H as [[= <- <-]|[[= <- <-]|[[= <- <-]|[]]]];
      (split; [|split]); simpl;
      try (repeat constructor; simpl; intuition discriminate);
      intros n Hn; simpl in Hn; tauto.
  - exists news. split; [exact Hrun|].
    symmetry. exact (Forall2_length _ _ _ Hall).
Defined.

(** ** Runs of the search *)

Lemma heappop_single (h : list State) (e : entry) :
  heappop h (heappush [] e) = Some (e, []).
Proof.
  destruct e as [p s]. unfold heappop, heappush, least. cbn.
  assert (Hp : num_eqb p p = true) by (destruct p; simpl; auto using Z.eqb_refl).
  now rewrite Hp, Nat.eqb_refl.
Qed.

(** X10.  When the initial state satisfies the goal and the first test
    of the deadline passes, [search] returns the plan of one pair, the
    initial state with ["complete"], after one pop and without a call
    of the successor generator. *)
Theorem search_goal_at_start (clock : nat -> Z) (graph : generator)
    (state : ref) (is_goal : State -> result bool) (limit : Z)
    (heuristic : State -> result num) (fuel : nat) (w : world) (d : State) :
  heap w !! state = Some d ->
  is_goal d = Ok true ->
  clock (S (ticks w)) - clock (ticks w) < limit ->
  search clock graph state is_goal limit heuristic (S (S fuel)) w =
    Ret (Some [(state, "complete")])
        (mkWorld (heap w) (S (S (S (S (ticks w)))))).
Proof.
  intros Hstate Hgoal Hlimit.
  assert (Heq : obj_eqb (heap w) state state = true)
    by (apply obj_eqb_refl; eauto).
  unfold search. rewrite bind_run. cbn [time restart].
  rewrite bind_run. cbn [time heap ticks].
  destruct (Z.ltb_spec (clock (S (ticks w)) - clock (ticks w)) limit);
    [|lia].
  rewrite bind_run. cbn [get_heap heap]. rewrite bind_run.
  cbn [explore frontier]. unfold heappush at 1. cbn [app].
  rewrite bind_run. cbn [get_heap heap].
  change [(Fin 0, state)] with (heappush [] (Fin 0, state)).
  rewrite heappop_single. rewrite bind_run. cbn [pop_event heap ticks].
  rewrite bind_run. unfold deref. cbn [heap]. rewrite Hstate.
  rewrite bind_run. unfold lift. rewrite Hgoal.
  rewrite bind_run. cbn [cost_so_far came_from_dict dict_set dict_get].
  rewrite Heq. cbn [mret M_ret]. rewrite bind_run.
  destruct fuel; cbn [walk heap]; rewrite Heq; reflexivity.
Qed.

Lemma search_goal_at_start_witness :
  search (fun _ => 0) (graph []) 0%nat (make_goal_checker [("wood", 3)]) 5
         (fun _ => Ok (Fin 15)) 2 (mkWorld [[("wood", 5)]] 0) =
    Ret (Some [(0%nat, "complete")]) (mkWorld [[("wood", 5)]] 4).
Proof.
  apply (search_goal_at_start (fun _ => 0) (graph []) 0%nat
           (make_goal_checker [("wood", 3)]) 5 (fun _ => Ok (Fin 15)) 0
           (mkWorld [[("wood", 5)]] 0) [("wood", 5)]).
  - reflexivity.
  - reflexivity.
  - lia.
Defined.

Lemma graph_none_applicable (all_recipes : list Recipe) (state : ref)
    (d : State) (A : Type) (body : succ -> A -> M A) (acc : A) (w : world) :
  heap w !! state = Some d ->
  (forall r, In r all_recipes -> check r d = Ok false) ->
  graph all_recipes state A body acc w = Ret acc w.
Proof.
  intros Hstate. unfold graph.
  induction all_recipes as [|r rs IH]; intros Hnone; cbn [graph_from];
    [reflexivity|].
  rewrite bind_run. unfold deref. rewrite Hstate. rewrite bind_run.
  unfold lift. rewrite (Hnone r) by now left.
  rewrite bind_run. cbn [mret M_ret]. apply IH.
  intros r' Hr'. apply Hnone. now right.
Qed.

Section Exhaustion.
Variable clock : nat -> Z.
Variable all_recipes : list Recipe.
Variable state : ref.
Variable is_goal : State -> result bool.
Variable limit : Z.
Variable heuristic : State -> result num.
Variable d : State.
Hypothesis not_goal : is_goal d = Ok false.
Hypothesis none_applies : forall r, In r all_recipes -> check r d = Ok false.

Lemma explore_exhausts (fuel : nat) (w : world) :
  heap w !! state = Some d ->
  explore clock (graph all_recipes) state is_goal heuristic (S fuel)
          (mkFrame (heappush [] (Fin 0, state))
                   (dict_set (heap w) [] state None)
                   (dict_set (heap w) [] state 0)) w =
    Ret None (mkWorld (heap w) (S (ticks w))).
Proof.
  intros Hstate. cbn [explore frontier]. unfold heappush at 1. cbn [app].
  rewrite bind_run. cbn [get_heap heap].
  change [(Fin 0, state)] with (heappush [] (Fin 0, state)).
  rewrite heappop_single. rewrite bind_run. cbn [pop_event heap ticks].
  rewrite bind_run. unfold deref. cbn [heap]. rewrite Hstate.
  rewrite bind_run. unfold lift. rewrite not_goal. rewrite bind_run.
  rewrite (graph_none_applicable all_recipes state d) by assumption.
  destruct fuel; reflexivity.
Qed.

Lemma restart_rounds (start_time : Z) (k : nat) :
  forall (fuel : nat) (w : world),
    (k < fuel)%nat ->
    heap w !! state = Some d ->
    (forall j, (j < k)%nat -> clock (ticks w + 2 * j)%nat - start_time < limit) ->
    limit <= clock (ticks w + 2 * k)%nat - start_time ->
    restart clock (graph all_recipes) state is_goal limit heuristic fuel
            start_time w =
      Ret None (mkWorld (heap w) (ticks w + 2 * k + 2)%nat).
Proof.
  induction k as [|k IH]; intros fuel w Hfuel Hstate Hearly Hlate.
  - destruct fuel as [|n]; [lia|].
    replace (ticks w + 2 * 0)%nat with (ticks w) in Hlate by lia.
    rewrite restart_past_deadline by assumption.
    do 2 f_equal. lia.
  - destruct fuel as [|m]; [lia|].
    cbn [restart]. rewrite bind_run. cbn [time].
    pose proof (Hearly 0%nat ltac:(lia)) as H0.
    replace (ticks w + 2 * 0)%nat with (ticks w) in H0 by lia.
    destruct (Z.ltb_spec (clock (ticks w) - start_time) limit); [|lia].
    rewrite bind_run. cbn [get_heap heap]. rewrite bind_run.
    assert (Hex : explore clock (graph all_recipes) state is_goal heuristic m
                    (mkFrame (heappush [] (Fin 0, state))
                             (dict_set (heap w) [] state None)
                             (dict_set (heap w) [] state 0))
                    (mkWorld (heap w) (S (ticks w))) =
                  Ret None (mkWorld (heap w) (S (S (ticks w))))).
    { destruct m as [|n]; [lia|].
      exact (explore_exhausts n (mkWorld (heap w) (S (ticks w))) Hstate). }
    rewrite Hex.
    rewrite (IH m); cbn [heap ticks].
    + do 2 f_equal. lia.
    + lia.
    + assumption.
    + intros j Hj. replace (S (S (ticks w)) + 2 * j)%nat
        with (ticks w + 2 * S j)%nat by lia.
      apply Hearly. lia.
    + replace (S (S (ticks w)) + 2 * k)%nat
        with (ticks w + 2 * S k)%nat by lia.
      exact Hlate.
Qed.
End Exhaustion.

(** X11.  When the initial state is not a goal and no rule applies to
    it, every run of the inner loop pops the initial state and leaves the
    frontier empty, and the outer loop starts again for as long as the
    test of the deadline passes: if the test passes [k] times and fails
    the next time, [search] returns None after [k] restarts, having
    allocated nothing. *)
Theorem search_exhausts_until_deadline (clock : nat -> Z)
    (all_recipes : list Recipe) (state : ref) (is_goal : State -> result bool)
    (limit : Z) (heuristic : State -> result num) (d : State)
    (k fuel : nat) (w : world) :
  heap w !! state = Some d ->
  is_goal d = Ok false ->
  (forall r, In r all_recipes -> check r d = Ok false) ->
  (k < fuel)%nat ->
  (forall j, (j < k)%nat ->
     clock (S (ticks w) + 2 * j)%nat - clock (ticks w) < limit) ->
  limit <= clock (S (ticks w) + 2 * k)%nat - clock (ticks w) ->
  search clock (graph all_recipes) state is_goal limit heuristic fuel w =
    Ret None (mkWorld (heap w) (ticks w + 2 * k + 3)%nat).
Proof.
  intros Hstate Hgoal Hnone Hfuel Hearly Hlate.
  unfold search. rewrite bind_run. cbn [time].
  rewrite (restart_rounds clock all_recipes state is_goal limit heuristic d
             Hgoal Hnone (clock (ticks w)) k); cbn [heap ticks]; auto.
  do 2 f_equal. lia.
Qed.

Lemma search_exhausts_until_deadline_witness :
  search (fun n => Z.of_nat n)
         (graph (build_rules
                   [("chop", mkRule (Some [("wood", 1)]) None [("plank", 4)] 1)]))
         0%nat (make_goal_checker [("plank", 4)]) 5 (fun _ => Ok (Fin 15)) 3
         (mkWorld [[("wood", 0); ("plank", 0)]] 0) =
    Ret None (mkWorld [[("wood", 0); ("plank", 0)]] 7).
Proof.
  apply (search_exhausts_until_deadline (fun n => Z.of_nat n)
           (build_rules
              [("chop", mkRule (Some [("wood", 1)]) None [("plank", 4)] 1)])
           0%nat (make_goal_checker [("plank", 4)]) 5 (fun _ => Ok (Fin 15))
           [("wood", 0); ("plank", 0)] 2 3
           (mkWorld [[("wood", 0); ("plank", 0)]] 0)).
  - reflexivity.
  - reflexivity.
  - intros r [<-|[]]. reflexivity.
  - lia.
  - intros j Hj. cbn [ticks]. cbv beta. lia.
  - cbn [ticks]. cbv beta. lia.
Defined.

(** ** The shape of a plan *)

Lemma linked_cons_head (h : list State)
    (cfd : list (ref * option (ref * string)))
    (s : ref) (a : string) (s' : ref) (a' : string) (tl : plan) :
  dict_get h cfd s' = Some (Some (s, a)) ->
  linked h cfd ((s', a') :: tl) ->
  linked h cfd ((s, a) :: (s', a') :: tl).
Proof. intros H1 H2. cbn [linked]. split; [exact H1|exact H2]. Qed.

Lemma walk_linked (state : ref) (fuel : nat)
    (cfd : list (ref * option (ref * string))) :
  forall (came_from : ref) (ret_list l : plan) (w w' : world),
    (exists a tl, rev ret_list = (came_from, a) :: tl) ->
    linked (heap w) cfd (rev ret_list) ->
    walk state fuel cfd came_from ret_list w = Ret l w' ->
    linked (heap w) cfd (rev l).
Proof.
  induction fuel as [|n IH]; intros came_from ret_list l w w' Hhead Hlinked;
    cbn [walk]; destruct (obj_eqb (heap w) came_from state) eqn:E;
    try discriminate; try (intros [= <- <-]; exact Hlinked).
  destruct (dict_get (heap w) cfd came_from) as [[[prev a]|]|] eqn:Hget;
    try discriminate.
  apply IH.
  - rewrite rev_app_distr. cbn [rev app]. eauto.
  - rewrite rev_app_distr. cbn [rev app].
    destruct Hhead as (a0 & tl & Hrev). rewrite Hrev in *.
    now apply linked_cons_head.
Qed.

(** X12.  The list that the reconstruction loop returns, once reversed,
    starts at a state equal to the initial state and ends with the pair of
    the popped state and ["complete"]; every pair but the last holds
    the predecessor and the action that [came_from_dict] records for the
    state of the next pair. *)
Theorem plan_pairs_each_state_with_next_action (state : ref) (fuel : nat)
    (cfd : list (ref * option (ref * string))) (current : ref)
    (l : plan) (w w' : world) :
  walk state fuel cfd current [(current, "complete")] w = Ret l w' ->
  linked (heap w) cfd (rev l) /\
  last (rev l) = Some (current, "complete") /\
  exists s0 a0 tl, rev l = (s0, a0) :: tl /\ obj_eqb (heap w) s0 state = true.
Proof.
  intros Hwalk. split.
  - apply (walk_linked state fuel cfd current [(current, "complete")] l w w');
      [cbn; eauto|cbn; auto|exact Hwalk].
  - apply walk_reaches_state in Hwalk as (_ & suffix & -> & Hlast).
    rewrite rev_app_distr. cbn [rev app]. split.
    + apply last_snoc.
    + destruct (rev suffix) as [|[s0 a0] tl] eqn:Erev.
      * apply (f_equal (@rev _)) in Erev. rewrite rev_involutive in Erev.
        subst suffix. cbn [last] in Hlast. cbn [app]. eauto.
      * assert (Hs : suffix = rev tl ++ [(s0, a0)]).
        { apply (f_equal (@rev _)) in Erev. now rewrite rev_involutive in Erev. }
        subst suffix. rewrite last_snoc in Hlast. cbn [app]. eauto.
Qed.

Lemma plan_pairs_each_state_with_next_action_witness :
  linked [[("wood", 5); ("plank", 0)]; [("wood", 4); ("plank", 4)]]
         [(0%nat, None); (1%nat, Some (0%nat, "chop"))]
         [(0%nat, "chop"); (1%nat, "complete")].
Proof.
  apply (plan_pairs_each_state_with_next_action 0%nat 1
           [(0%nat, None); (1%nat, Some (0%nat, "chop"))] 1%nat
           [(1%nat, "complete"); (0%nat, "chop")]
           (mkWorld [[("wood", 5); ("plank", 0)]; [("wood", 4); ("plank", 4)]] 3)
           (mkWorld [[("wood", 5); ("plank", 0)]; [("wood", 4); ("plank", 4)]] 3)).
  reflexivity.
Defined.

(** ** The search raises nothing on a closed domain *)

Lemma good_extend (ks : list string) (h h' : list State) (r : ref) :
  good ks h r -> good ks (h ++ h') r.
Proof.
  intros (d & Hd & Hk). exists d. split; [now apply lookup_app_l_Some|exact Hk].
Qed.

Lemma good_is_Some (ks : list string) (h : list State) (r : ref) :
  good ks h r -> is_Some (h !! r).
Proof. intros (d & Hd & _). eauto. Qed.

Lemma obj_eqb_extend (h h' : list State) (a b : ref) :
  is_Some (h !! a) -> is_Some (h !! b) ->
  obj_eqb (h ++ h') a b = obj_eqb h a b.
Proof.
  intros [x Hx] [y Hy]. unfold obj_eqb.
  now rewrite (lookup_app_l_Some _ _ _ _ Hx), (lookup_app_l_Some _ _ _ _ Hy),
    Hx, Hy.
Qed.

Lemma dict_get_extend {V} (h h' : list State) (d : list (ref * V)) (q : ref) :
  (forall k v, In (k, v) d -> is_Some (h !! k)) -> is_Some (h !! q) ->
  dict_get (h ++ h') d q = dict_get h d q.
Proof.
  intros Hkeys Hq. induction d as [|[k v] d IH]; simpl; [reflexivity|].
  rewrite obj_eqb_extend; [|apply (Hkeys k v); now left|assumption].
  destruct (obj_eqb h k q); [reflexivity|].
  apply IH. intros k' v' H. apply (Hkeys k' v'). now right.
Qed.

Lemma obj_eqb_right (h : list State) (k k0 k' : ref) :
  obj_eqb h k k0 = true -> obj_eqb h k' k = obj_eqb h k' k0.
Proof.
  intros H. apply obj_eqb_true in H as (x & Hk & Hk0).
  unfold obj_eqb. now rewrite Hk, Hk0.
Qed.

Lemma dict_get_eqb {V} (h : list State) (d : list (ref * V)) (k k0 : ref) :
  obj_eqb h k k0 = true -> dict_get h d k = dict_get h d k0.
Proof.
  intros H. induction d as [|[k' v] d IH]; simpl; [reflexivity|].
  rewrite (obj_eqb_right h k k0 k' H). now rewrite IH.
Qed.

Lemma dict_get_in {V} (h : list State) (d : list (ref * V)) (q : ref) (v : V) :
  dict_get h d q = Some v -> exists k, In (k, v) d /\ obj_eqb h k q = true.
Proof.
  induction d as [|[k' v'] d IH]; simpl; [discriminate|].
  destruct (obj_eqb h k' q) eqn:E.
  - intros [= ->]. exists k'. auto.
  - intros H. destruct (IH H) as (k & Hin & Hk). exists k. auto.
Qed.

Lemma dict_set_is_Some {V} (h : list State) (d : list (ref * V))
    (k q : ref) (v : V) :
  is_Some (dict_get h d q) -> is_Some (dict_get h (dict_set h d k v) q).
Proof.
  intros Hq. destruct (obj_eqb h k q) eqn:E.
  - rewrite <- (dict_get_eqb h _ k q E).
    rewrite dict_get_set_same; [eauto|].
    apply obj_eqb_true in E as (x & Hk & _). eauto.
  - now rewrite dict_get_set_other.
Qed.

Lemma dict_set_in {V} (h : list State) (d : list (ref * V)) (k : ref) (v : V)
    (k' : ref) (v' : V) :
  In (k', v') (dict_set h d k v) ->
  In (k', v') d \/ (v' = v /\ (k' = k \/ exists v0, In (k', v0) d)).
Proof.
  induction d as [|[k1 v1] d IH]; simpl.
  - intros [[= <- <-]|[]]. right. auto.
  - destruct (obj_eqb h k1 k).
    + intros [[= <- <-]|H]; [|auto]. right. split; [reflexivity|].
      right. exists v1. now left.
    + intros [[= <- <-]|H]; [left; now left|].
      destruct (IH H) as [Hin|(-> & [->|(v0 & Hin)])]; auto.
      right. split; [reflexivity|]. right. exists v0. now right.
Qed.

Lemma search_inv_extend (ks : list string) (state : ref) (h h' : list State)
    (fr : frame) :
  search_inv ks state h fr -> search_inv ks state (h ++ h') fr.
Proof.
  intros (Hfront & Hcost & Hfrom).
  assert (Hck : forall k c, In (k, c) (cost_so_far fr) -> is_Some (h !! k))
    by (intros k c H; apply (good_is_Some ks), (Hcost k c H)).
  assert (Hfk : forall k v, In (k, v) (came_from_dict fr) -> is_Some (h !! k))
    by (intros k v H; apply (good_is_Some ks), (Hfrom k v H)).
  split; [|split].
  - intros p s Hin. destruct (Hfront p s Hin) as (Hg & Hc & Hf).
    pose proof (good_is_Some _ _ _ Hg) as Hs.
    split; [now apply good_extend|].
    now rewrite !dict_get_extend.
  - intros k c Hin. apply good_extend. eauto.
  - intros k v Hin. destruct (Hfrom k v Hin) as (Hg & Hv).
    split; [now apply good_extend|].
    destruct v as [[prev a]|].
    + destruct Hv as (Hp & Hs). split; [now apply good_extend|].
      rewrite dict_get_extend; [assumption|assumption|].
      now apply (good_is_Some ks).
    + pose proof Hv as Hv'. apply obj_eqb_true in Hv' as (x & Hk & Hst).
      rewrite obj_eqb_extend; eauto.
Qed.

Lemma least_in (h : list State) (l : list entry) :
  forall e : entry, In (least h e l) (e :: l).
Proof.
  unfold least. induction l as [|x l IH]; intros e; simpl; [now left|].
  destruct (IH (if entry_ltb h x e then x else e)) as [H|H].
  - rewrite <- H. destruct (entry_ltb h x e); auto.
  - auto.
Qed.

Lemma remove_entry_in (m x : entry) (l : list entry) :
  In x (remove_entry m l) -> In x l.
Proof.
  induction l as [|y l IH]; simpl; [tauto|].
  destruct (num_eqb (fst y) (fst m) && Nat.eqb (snd y) (snd m)).
  - auto.
  - intros [H|H]; auto.
Qed.

Lemma heappop_in (h : list State) (f : list entry) (e : entry)
    (rest : list entry) :
  heappop h f = Some (e, rest) ->
  In e f /\ forall x, In x rest -> In x f.
Proof.
  destruct f as [|e0 f]; [discriminate|]. unfold heappop.
  intros H. injection H as <- <-. split; [apply least_in|].
  intros x. exact (remove_entry_in (least h e0 f) x (e0 :: f)).
Qed.

Section Closed.
Variable clock : nat -> Z.
Variable ks : list string.
Variable recipes : list (string * Rule).
Variable goal : Goal.
Variable state : ref.
Variable limit : Z.
Variable heuristic : State -> result num.
Variable allowed : exn -> Prop.
Hypothesis ks_NoDup : List.NoDup ks.
Hypothesis rules_closed :
  forall nm rule, In (nm, rule) recipes -> closed_rule ks rule.
Hypothesis goal_closed : forall n a, In (n, a) goal -> In n ks.
Hypothesis priority_raises :
  forall d z, keys d = ks ->
    match rbind (heuristic d) (fun hv => num_add (Fin z) hv) with
    | Ok _ => True
    | Raise e => allowed e
    end.

Lemma relax_inv (current : ref) (nm : string) (next : ref) (action_cost : Z)
    (fr : frame) (w : world) :
  search_inv ks state (heap w) fr ->
  good ks (heap w) current -> good ks (heap w) next ->
  is_Some (dict_get (heap w) (cost_so_far fr) current) ->
  is_Some (dict_get (heap w) (came_from_dict fr) current) ->
  match relax heuristic current (nm, next, action_cost) fr w with
  | Ret fr' w' =>
      w' = w /\
      search_inv ks state (heap w) fr' /\
      is_Some (dict_get (heap w) (cost_so_far fr') current) /\
      is_Some (dict_get (heap w) (came_from_dict fr') current)
  | Exc e => allowed e
  | OutOfFuel => True
  end.
Proof.
  intros Hinv Hcur Hnext [c Hc] Hfromcur.
  destruct Hcur as (d & Hd & Hk).
  pose proof (priority_raises d (action_cost + c) Hk) as Hpr.
  unfold relax. rewrite bind_run. cbn [get_heap]. rewrite Hc.
  rewrite bind_run. cbn [mret M_ret].
  destruct (match dict_get (heap w) (cost_so_far fr) next with
            | Some old => action_cost + c <? old
            | None => true
            end).
  2: { split; [reflexivity|]. split; [assumption|]. split; eauto. }
  rewrite bind_run. unfold deref. rewrite Hd. rewrite bind_run.
  unfold lift at 1.
  destruct (heuristic d) as [hv|e]; cbn [rbind] in Hpr; [|exact Hpr].
  rewrite bind_run. unfold lift.
  destruct (num_add (Fin (action_cost + c)) hv) as [priority|e];
    [|exact Hpr].
  cbn [mret M_ret]. split; [reflexivity|].
  destruct Hinv as (Hfront & Hcost & Hfrom).
  pose proof (good_is_Some _ _ _ Hnext) as Hnext'.
  assert (Hcurgood : good ks (heap w) current) by (exists d; auto).
  split; [|split].
  - split; [|split]; cbn [frontier cost_so_far came_from_dict].
    + intros p s Hin. unfold heappush in Hin.
      apply in_app_or in Hin as [Hin|[[= <- <-]|[]]].
      * destruct (Hfront p s Hin) as (Hg & Hcs & Hfs).
        split; [assumption|]. split; now apply dict_set_is_Some.
      * split; [assumption|].
        rewrite !dict_get_set_same by assumption. eauto.
    + intros k c0 Hin.
      apply dict_set_in in Hin as [Hin|(_ & [->|(v0 & Hin)])]; eauto.
    + intros k v Hin.
      apply dict_set_in in Hin as [Hin|(-> & Hkey)].
      * destruct (Hfrom k v Hin) as (Hg & Hv). split; [assumption|].
        destruct v as [[prev a]|]; [|assumption].
        destruct Hv as (Hp & Hs). split; [assumption|].
        now apply dict_set_is_Some.
      * split.
        -- destruct Hkey as [->|(v0 & Hin)]; [assumption|].
           apply (Hfrom k v0 Hin).
        -- split; [assumption|]. now apply dict_set_is_Some.
  - cbn [cost_so_far]. apply dict_set_is_Some. eauto.
  - cbn [came_from_dict]. now apply dict_set_is_Some.
Qed.

Lemma expand_safe (current : ref) (dcur : State) :
  keys dcur = ks ->
  forall (rs : list (string * Rule)) (fr : frame) (w : world),
    (forall nm rule, In (nm, rule) rs -> closed_rule ks rule) ->
    heap w !! current = Some dcur ->
    search_inv ks state (heap w) fr ->
    is_Some (dict_get (heap w) (cost_so_far fr) current) ->
    is_Some (dict_get (heap w) (came_from_dict fr) current) ->
    match graph_from (build_rules rs) current frame (relax heuristic current)
                     fr w with
    | Ret fr' w' =>
        exists news,
          w' = mkWorld (heap w ++ news) (ticks w) /\
          Forall (fun d => keys d = ks) news /\
          search_inv ks state (heap w ++ news) fr'
    | Exc e => allowed e
    | OutOfFuel => True
    end.
Proof.
  intros Hk. induction rs as [|[nm rule] rs IH];
    intros fr w Hclosed Hcur Hinv Hcost Hfrom.
  - cbn [build_rules map graph_from]. unfold mret, M_ret. exists [].
    rewrite app_nil_r. split; [now destruct w|]. split; [constructor|assumption].
  - destruct (Hclosed nm rule) as (Hc & Hp & Hin); [now left|].
    rewrite <- Hk in Hin.
    assert (Hclosed' : forall nm' rule', In (nm', rule') rs ->
                         closed_rule ks rule')
      by (intros nm' rule' H; apply (Hclosed nm' rule'); now right).
    assert (Hnd : List.NoDup (keys dcur)) by now rewrite Hk.
    cbn [build_rules map graph_from]. cbn [check effect name cost].
    rewrite bind_run. unfold deref at 1. rewrite Hcur.
    rewrite bind_run. unfold lift at 1.
    rewrite (make_checker_bool rule dcur Hin).
    destruct (applies dcur rule).
    + rewrite !bind_run.
      destruct (effect_quantities rule current dcur w Hcur Hnd Hc Hp Hin)
        as (d' & -> & Hk' & _).
      set (w1 := mkWorld (heap w ++ [d']) (ticks w)).
      assert (Hcur1 : heap w1 !! current = Some dcur)
        by (now apply lookup_app_l_Some).
      assert (Hcs : forall k c, In (k, c) (cost_so_far fr) ->
                is_Some (heap w !! k)).
      { intros k c H. apply (good_is_Some ks). now apply (proj1 (proj2 Hinv) k c). }
      assert (Hfs : forall k v, In (k, v) (came_from_dict fr) ->
                is_Some (heap w !! k)).
      { intros k v H. apply (good_is_Some ks).
        now apply (proj2 (proj2 Hinv) k v). }
      pose proof (relax_inv current nm (length (heap w)) (Time rule) fr w1)
        as Hrelax.
      destruct (relax heuristic current (nm, length (heap w), Time rule) fr w1)
        as [fr1 w1'|e|].
      * destruct Hrelax as (-> & Hinv1 & Hcost1 & Hfrom1).
        -- now apply search_inv_extend.
        -- exists dcur. auto.
        -- exists d'. split; [now apply list_lookup_middle|congruence].
        -- cbn [heap w1]. rewrite dict_get_extend; eauto.
        -- cbn [heap w1]. rewrite dict_get_extend; eauto.
        -- pose proof (IH fr1 w1 Hclosed' Hcur1 Hinv1 Hcost1 Hfrom1) as HIH.
           fold (build_rules rs).
           destruct (graph_from (build_rules rs) current frame
                                (relax heuristic current) fr1 w1)
             as [fr' w'|e|]; [|exact HIH|exact I].
           destruct HIH as (news & -> & Hall & Hinv').
           exists (d' :: news). subst w1. cbn [heap ticks] in *.
           rewrite <- app_assoc in Hinv'. rewrite <- app_assoc.
           split; [reflexivity|].
           split; [constructor; [congruence|assumption]|exact Hinv'].
      * apply Hrelax.
        -- now apply search_inv_extend.
        -- exists dcur. auto.
        -- exists d'. split; [now apply list_lookup_middle|congruence].
        -- cbn [heap w1]. rewrite dict_get_extend; eauto.
        -- cbn [heap w1]. rewrite dict_get_extend; eauto.
      * exact I.
    + rewrite bind_run. cbn [mret M_ret]. now apply IH.
Qed.

Lemma walk_safe (cfd : list (ref * option (ref * string))) (fuel : nat) :
  forall (came_from : ref) (ret_list : plan) (w : world),
    (forall k v, In (k, v) cfd ->
       match v with
       | None => obj_eqb (heap w) k state = true
       | Some (prev, _) =>
           good ks (heap w) prev /\ is_Some (dict_get (heap w) cfd prev)
       end) ->
    is_Some (dict_get (heap w) cfd came_from) ->
    (forall s a, In (s, a) ret_list -> good ks (heap w) s) ->
    match walk state fuel cfd came_from ret_list w with
    | Ret l w' => w' = w /\ forall s a, In (s, a) l -> good ks (heap w) s
    | Exc _ => False
    | OutOfFuel => True
    end.
Proof.
  induction fuel as [|n IH]; intros came_from ret_list w Hcfd [v Hv] Hret;
    cbn [walk]; destruct (obj_eqb (heap w) came_from state) eqn:E; auto.
  rewrite Hv. destruct (dict_get_in _ _ _ _ Hv) as (k & Hin & Hk).
  pose proof (Hcfd k v Hin) as Hkv. destruct v as [[prev a]|].
  - destruct Hkv as (Hgood & Hsome). apply IH; [assumption..|].
    intros s b Hs. apply in_app_or in Hs as [Hs|[[= <- <-]|[]]]; eauto.
  - rewrite (obj_eqb_trans _ k came_from state Hk Hkv) in E. discriminate.
Qed.

Lemma good_later (h news : list State) (r : option plan) :
  plan_good ks r h -> plan_good ks r (h ++ news).
Proof.
  destruct r as [p|]; cbn [plan_good]; [|auto].
  intros H s a Hin. apply good_extend. eauto.
Qed.

Lemma safe_later {A} (h : list State) (news : list State)
    (Q : A -> list State -> Prop) (o : outcome A) :
  Forall (fun d => keys d = ks) news ->
  safe ks (h ++ news) allowed Q o -> safe ks h allowed Q o.
Proof.
  intros Hall. destruct o as [a w'| |]; cbn [safe]; auto.
  intros ((news' & -> & Hall') & HQ). split; [|exact HQ].
  exists (news ++ news').
  split; [now rewrite app_assoc|]. now apply Forall_app.
Qed.

Lemma safe_here {A} (h : list State) (Q : A -> list State -> Prop)
    (a : A) (t : nat) :
  Q a h -> safe ks h allowed Q (Ret a (mkWorld h t)).
Proof.
  intros HQ. cbn [safe heap]. split; [|exact HQ]. exists [].
  rewrite app_nil_r. split; [reflexivity|constructor].
Qed.

Lemma explore_safe (fuel : nat) :
  forall (fr : frame) (w : world),
    search_inv ks state (heap w) fr ->
    safe ks (heap w) allowed (plan_good ks)
         (explore clock (graph (build_rules recipes)) state
                  (make_goal_checker goal) heuristic fuel fr w).
Proof.
  induction fuel as [|n IH]; intros fr w Hinv; cbn [explore];
    destruct (frontier fr) as [|e0 rest0] eqn:Ef;
    try (destruct w; apply safe_here; exact I);
    [exact I|].
  rewrite bind_run. cbn [get_heap].
  destruct (heappop (heap w) (e0 :: rest0)) as [[[prio current] rest]|] eqn:Hpop;
    [|discriminate Hpop].
  apply heappop_in in Hpop as [Hcur Hrest]. rewrite <- Ef in Hcur, Hrest.
  destruct Hinv as (Hfront & Hcost & Hfrom).
  destruct (Hfront prio current Hcur) as (Hgood & [c Hc] & Hf).
  destruct Hgood as (d & Hd & Hk).
  rewrite bind_run. cbn [pop_event]. rewrite bind_run. unfold deref.
  cbn [heap ticks]. rewrite Hd. rewrite bind_run. unfold lift.
  destruct (check_amounts_present d goal) as [b [Hb _]].
  { intros m a H. rewrite Hk. now apply (goal_closed m a). }
  unfold make_goal_checker at 1. rewrite Hb. destruct b.
  - rewrite bind_run. rewrite Hc. cbn [mret M_ret]. rewrite bind_run.
    match goal with
    | |- context [walk state n ?cfd ?cf ?rl ?w0] =>
        pose proof (walk_safe cfd n cf rl w0) as Hwalk;
        destruct (walk state n cfd cf rl w0) as [l w1| |]
    end.
    + destruct Hwalk as [-> Hl].
      * cbn [heap]. intros k v Hin. destruct (Hfrom k v Hin) as (_ & Hv).
        destruct v as [[prev a]|]; exact Hv.
      * exact Hf.
      * cbn [heap]. intros s a [[= <- <-]|[]]. exists d. auto.
      * rewrite bind_run. cbn [time heap ticks]. apply safe_here.
        cbn [plan_good]. intros s a Hin. apply in_rev in Hin.
        now apply (Hl s a).
    + exfalso. apply Hwalk.
      * cbn [heap]. intros k v Hin. destruct (Hfrom k v Hin) as (_ & Hv).
        destruct v as [[prev a]|]; exact Hv.
      * exact Hf.
      * cbn [heap]. intros s a [[= <- <-]|[]]. exists d. auto.
    + exact I.
  - rewrite bind_run.
    set (w0 := mkWorld (heap w) (S (ticks w))).
    assert (Hinv0 : search_inv ks state (heap w0)
                      (mkFrame rest (came_from_dict fr) (cost_so_far fr))).
    { split; [|split]; cbn [frontier cost_so_far came_from_dict heap w0].
      - intros p s Hin. apply (Hfront p s). now apply Hrest.
      - exact Hcost.
      - exact Hfrom. }
    assert (Hc0 : is_Some (dict_get (heap w0) (cost_so_far fr) current))
      by (cbn [heap w0]; eauto).
    pose proof (expand_safe current d Hk recipes
                  (mkFrame rest (came_from_dict fr) (cost_so_far fr)) w0
                  rules_closed Hd Hinv0 Hc0 Hf) as Hexp.
    unfold graph.
    destruct (graph_from (build_rules recipes) current frame
                         (relax heuristic current)
                         (mkFrame rest (came_from_dict fr) (cost_so_far fr)) w0)
      as [fr' w'|e|]; [|exact Hexp|exact I].
    destruct Hexp as (news & -> & Hall & Hinv').
    apply (safe_later (heap w) news _ _ Hall).
    apply (IH fr' (mkWorld (heap w0 ++ news) (ticks w0))). exact Hinv'.
Qed.

Lemma restart_safe (start_time : Z) (fuel : nat) :
  forall w : world,
    good ks (heap w) state ->
    safe ks (heap w) allowed (plan_good ks)
         (restart clock (graph (build_rules recipes)) state
                  (make_goal_checker goal) limit heuristic fuel start_time w).
Proof.
  induction fuel as [|n IH]; intros w Hstate; cbn [restart]; [exact I|].
  rewrite bind_run. cbn [time].
  destruct (clock (ticks w) - start_time <? limit).
  - rewrite bind_run. cbn [get_heap heap]. rewrite bind_run.
    pose proof (good_is_Some _ _ _ Hstate) as Hsome.
    pose proof (obj_eqb_refl _ _ Hsome) as Hrefl.
    match goal with
    | |- context [explore _ _ _ _ _ n ?fr0 ?w0] =>
        assert (Hinit : search_inv ks state (heap w0) fr0);
        [|pose proof (explore_safe n fr0 w0 Hinit) as Hex;
          destruct (explore clock (graph (build_rules recipes)) state
                            (make_goal_checker goal) heuristic n fr0 w0)
            as [[p|] w1| |]]
    end.
    + cbn [heap].
      split; [|split]; cbn [frontier cost_so_far came_from_dict dict_set].
      * intros p0 s [[= <- <-]|[]]. split; [assumption|].
        cbn [dict_get]. rewrite Hrefl. eauto.
      * intros k c [[= <- <-]|[]]. assumption.
      * intros k v [[= <- <-]|[]]. auto.
    + exact Hex.
    + destruct Hex as ((news & Hheap & Hall) & _).
      cbn [heap] in Hheap.
      apply (safe_later (heap w) news _ _ Hall). rewrite <- Hheap.
      apply IH. rewrite Hheap. now apply good_extend.
    + exact Hex.
    + exact I.
  - rewrite bind_run. cbn [time mret M_ret heap ticks]. apply safe_here.
    exact I.
Qed.

Lemma search_safe (fuel : nat) (w : world) :
  good ks (heap w) state ->
  safe ks (heap w) allowed (plan_good ks)
       (search clock (graph (build_rules recipes)) state
               (make_goal_checker goal) limit heuristic fuel w).
Proof.
  intros Hstate. unfold search. rewrite bind_run. cbn [time].
  apply (restart_safe (clock (ticks w)) fuel
           (mkWorld (heap w) (S (ticks w)))).
  exact Hstate.
Qed.
End Closed.


Lemma scenario_A_closed :
  forall nm rule, In (nm, rule) (Recipes scenario_A) ->
    closed_rule ["wood"; "plank"] rule.
Proof.
  intros nm rule [[= <- <-]|[]]. split; [|split]; simpl.
  - repeat constructor; simpl; tauto.
  - repeat constructor; simpl; tauto.
  - tauto.
Qed.

Lemma wood_plank_NoDup : List.NoDup ["wood"; "plank"].
Proof. repeat constructor; simpl; intuition discriminate. Qed.


(** X14.  Under the same conditions, when [search] returns, the store
    has the objects it had, unchanged, followed by the States allocated
    during the search, and each of these has the keys of the initial
    state; every state of a returned plan is one of these objects. *)
Theorem search_keeps_key_set (clock : nat -> Z) (ks : list string)
    (recipes : list (string * Rule)) (goal : Goal) (state : ref) (limit : Z)
    (heuristic : State -> result num) (fuel : nat) (w w' : world)
    (r : option plan) :
  List.NoDup ks ->
  (forall nm rule, In (nm, rule) recipes -> closed_rule ks rule) ->
  (forall n a, In (n, a) goal -> In n ks) ->
  (forall d, keys d = ks -> exists v, heuristic d = Ok v) ->
  good ks (heap w) state ->
  search clock (graph (build_rules recipes)) state (make_goal_checker goal)
         limit heuristic fuel w = Ret r w' ->
  (exists news, heap w' = heap w ++ news /\
                Forall (fun d => keys d = ks) news) /\
  (forall p s a, r = Some p -> In (s, a) p ->
     exists d, heap w' !! s = Some d /\ keys d = ks).
Proof.
  intros Hnd Hrules Hgoal Hh Hstate Hrun.
  pose proof (search_safe clock ks recipes goal state limit heuristic
                (fun _ => True) Hnd Hrules Hgoal) as Hsafe.
  specialize (Hsafe ltac:(intros d z Hd;
                          destruct (rbind (heuristic d) _); exact I)
                    fuel w Hstate).
  rewrite Hrun in Hsafe. destruct Hsafe as [Hheap Hplan].
  split; [exact Hheap|].
  intros p s a -> Hin. exact (Hplan s a Hin).
Qed.

Lemma search_keeps_key_set_witness :
  (exists news,
     [[("wood", 5); ("plank", 0)]; [("wood", 4); ("plank", 4)]] =
       [initial_state scenario_A] ++ news /\
     Forall (fun d => keys d = ["wood"; "plank"]) news) /\
  (forall p s a, Some [(0%nat, "chop"); (1%nat, "complete")] = Some p ->
     In (s, a) p ->
     exists d,
       [[("wood", 5); ("plank", 0)]; [("wood", 4); ("plank", 4)]] !! s = Some d
       /\ keys d = ["wood"; "plank"]).
Proof.
  apply (search_keeps_key_set (fun _ => 0) ["wood"; "plank"]
           (Recipes scenario_A) (Goal_ scenario_A) 0%nat 5
           (fun _ => Ok (Fin 15)) 10
           (mkWorld [initial_state scenario_A] 0)
           (mkWorld [[("wood", 5); ("plank", 0)]; [("wood", 4); ("plank", 4)]] 5)
           (Some [(0%nat, "chop"); (1%nat, "complete")])).
  - exact wood_plank_NoDup.
  - exact scenario_A_closed.
  - intros n a [[= <- <-]|[]]. simpl. tauto.
  - intros d _. eauto.
  - exists (initial_state scenario_A). split; reflexivity.
  - vm_compute. reflexivity.
Defined.

(** ** The main program on a closed domain *)

Lemma plan_states_returns (p : plan) (w : world) :
  (forall s a, In (s, a) p -> is_Some (heap w !! s)) ->
  exists shown, plan_states p w = Ret shown w.
Proof.
  induction p as [|[s a] p IH]; intros Hp; cbn [plan_states].
  - eexists. reflexivity.
  - destruct (Hp s a) as [d Hd]; [now left|].
    destruct IH as [tl Htl]; [intros s' a' H; apply (Hp s' a'); now right|].
    rewrite bind_run. unfold deref. rewrite Hd. rewrite bind_run, Htl.
    eexists. reflexivity.
Qed.

Lemma last_build_rules (recipes : list (string * Rule)) (nm : string)
    (rule : Rule) :
  last recipes = Some (nm, rule) ->
  last (build_rules recipes) =
  Some (mkRecipe nm (make_checker rule) (make_effector rule) (Time rule)).
Proof.
  intros H. unfold build_rules.
  change (map ?f ?l) with (f <$> l). rewrite fmap_last, H. reflexivity.
Qed.

(** X15.  The main program raises no exception on a domain whose rules
    and goal name only keys of the initial state, name no key twice in
    a clause, and whose last rule has a name that is not an item: it
    returns a plan or None, or runs on. *)
Theorem main_raises_nothing (clock : nat -> Z) (fuel : nat) (c : Crafting)
    (w : world) (nm : string) (rule : Rule) :
  (forall nm' rule', In (nm', rule') (Recipes c) ->
     closed_rule (keys (initial_state c)) rule') ->
  (forall n a, In (n, a) (Goal_ c) -> In n (keys (initial_state c))) ->
  last (Recipes c) = Some (nm, rule) ->
  ~ In nm (keys (initial_state c)) ->
  forall e : exn, main clock fuel c w <> Exc e.
Proof.
  intros Hrules Hgoal Hlast Hnm e.
  set (ks := keys (initial_state c)) in *.
  assert (Hnd : List.NoDup ks)
    by (apply NoDup_keys_update, NoDup_keys_State_init).
  unfold main. rewrite bind_run. rewrite bind_run. cbn [State_new].
  rewrite bind_run. cbn [assign heap ticks mret M_ret].
  rewrite insert_last. rewrite (last_build_rules _ nm rule Hlast).
  set (w1 := mkWorld (heap w ++ [initial_state c]) (ticks w)).
  rewrite bind_run.
  pose proof (search_safe clock ks (Recipes c) (Goal_ c) (length (heap w)) 5
                (heuristic (Some (mkRecipe nm (make_checker rule)
                                           (make_effector rule) (Time rule))))
                (fun _ => False) Hnd Hrules Hgoal) as Hsafe.
  assert (Hh : forall d, keys d = ks ->
            heuristic (Some (mkRecipe nm (make_checker rule)
                                      (make_effector rule) (Time rule))) d
            = Ok (Fin 15)).
  { intros d Hd. unfold heuristic.
    apply heuristic_items_quiet. intros n Hn.
    destruct (getitem_in d n Hn) as [q Hq]. exists q. split; [exact Hq|].
    right. eexists. split; [reflexivity|]. cbn [name].
    intros ->. apply Hnm. now rewrite <- Hd. }
  specialize (Hsafe ltac:(intros d z Hd; rewrite (Hh d Hd); exact I) fuel w1).
  specialize (Hsafe ltac:(
    exists (initial_state c); split;
    [now apply list_lookup_middle|reflexivity])).
  destruct (search clock _ _ _ _ _ fuel w1) as [[p|] w2| |];
    cbn [safe] in Hsafe; try discriminate.
  - destruct Hsafe as [_ Hplan]. cbn [plan_good] in Hplan.
    destruct (plan_states_returns p w2) as [shown Hshown].
    { intros s a Hin. apply (good_is_Some ks). exact (Hplan s a Hin). }
    rewrite bind_run, Hshown. discriminate.
  - contradiction.
Qed.

Lemma main_raises_nothing_witness :
  match main (fun _ => 0) 10 scenario_A empty_world with
  | Exc _ => False
  | _ => True
  end.
Proof.
  destruct (main (fun _ => 0) 10 scenario_A empty_world) as [r w'|e|] eqn:E;
    [exact I| |exact I].
  apply (main_raises_nothing (fun _ => 0) 10 scenario_A empty_world "chop"
           (mkRule (Some [("wood", 1)]) None [("plank", 4)] 1)
           scenario_A_closed) with (e := e).
  - intros n a [[= <- <-]|[]]. simpl. tauto.
  - reflexivity.
  - simpl. intros [H|[H|[]]]; discriminate.
  - exact E.
Defined.

(** ** Recorded costs *)

Lemma obj_eqb_sym (h : list State) (a b : ref) :
  obj_eqb h a b = true -> obj_eqb h b a = true.
Proof.
  rewrite !obj_eqb_true. intros (x & Ha & Hb). eauto.
Qed.

Lemma relax_run (heuristic : State -> result num) (current : ref)
    (nm : string) (next : ref) (action_cost : Z) (fr : frame) (w : world)
    (d : State) (c : Z) (hv priority : num) :
  heap w !! current = Some d ->
  dict_get (heap w) (cost_so_far fr) current = Some c ->
  heuristic d = Ok hv ->
  (improves (heap w) (cost_so_far fr) next (action_cost + c) ->
   num_add (Fin (action_cost + c)) hv = Ok priority) ->
  relax heuristic current (nm, next, action_cost) fr w =
  Ret (if match dict_get (heap w) (cost_so_far fr) next with
          | Some old => action_cost + c <? old
          | None => true
          end
       then mkFrame
              (heappush (frontier fr) (priority, next))
              (dict_set (heap w) (came_from_dict fr) next (Some (current, nm)))
              (dict_set (heap w) (cost_so_far fr) next (action_cost + c))
       else fr) w.
Proof.
  intros Hcur Hc Hh Hadd. unfold relax. rewrite bind_run. cbn [get_heap].
  rewrite Hc. rewrite bind_run. cbn [mret M_ret].
  pose proof (improves_test (heap w) (cost_so_far fr) next (action_cost + c))
    as Htest.
  destruct (match dict_get (heap w) (cost_so_far fr) next with
            | Some old => action_cost + c <? old
            | None => true
            end); [|reflexivity].
  rewrite bind_run. unfold deref. rewrite Hcur. rewrite bind_run.
  unfold lift at 1. rewrite Hh. rewrite bind_run. unfold lift.
  rewrite Hadd by (now apply Htest). reflexivity.
Qed.

(** X16.  A call of the loop body that returns leaves the store as it
    is and raises no recorded cost: a state that had a recorded cost has
    one afterwards, and it is not greater. *)
Theorem relax_cost_never_increases (heuristic : State -> result num)
    (current : ref) (nm : string) (next : ref) (action_cost : Z)
    (fr fr' : frame) (w w' : world) :
  relax heuristic current (nm, next, action_cost) fr w = Ret fr' w' ->
  w' = w /\
  forall k c0, dict_get (heap w) (cost_so_far fr) k = Some c0 ->
    exists c1, dict_get (heap w) (cost_so_far fr') k = Some c1 /\ c1 <= c0.
Proof.
  unfold relax. rewrite bind_run. cbn [get_heap].
  destruct (dict_get (heap w) (cost_so_far fr) current) as [c|];
    [|discriminate].
  rewrite bind_run. cbn [mret M_ret].
  destruct (match dict_get (heap w) (cost_so_far fr) next with
            | Some old => action_cost + c <? old
            | None => true
            end) eqn:Htest.
  2: { intros [= <- <-]. split; [reflexivity|]. intros k c0 H. exists c0.
       split; [exact H|lia]. }
  rewrite bind_run. unfold deref.
  destruct (heap w !! current) as [d|]; [|discriminate].
  rewrite bind_run. unfold lift at 1.
  destruct (heuristic d) as [hv|e]; [|discriminate].
  rewrite bind_run. unfold lift.
  destruct (num_add (Fin (action_cost + c)) hv) as [priority|e];
    [|discriminate].
  intros [= <- <-]. split; [reflexivity|]. cbn [cost_so_far].
  intros k c0 Hk. destruct (obj_eqb (heap w) next k) eqn:E.
  - exists (action_cost + c). split.
    + rewrite <- (dict_get_eqb _ _ next k E). apply dict_get_set_same.
      apply obj_eqb_true in E as (x & Hx & _). eauto.
    + rewrite (dict_get_eqb _ _ next k E), Hk in Htest.
      apply Z.ltb_lt in Htest. lia.
  - exists c0. split; [|lia]. now rewrite dict_get_set_other.
Qed.

Lemma relax_cost_never_increases_witness :
  exists c1,
    dict_get [[("wood", 5); ("plank", 0)]; [("wood", 4); ("plank", 4)]]
             [(0%nat, 0); (1%nat, 1)] 1%nat = Some c1 /\ c1 <= 9.
Proof.
  exact (proj2
    (relax_cost_never_increases (fun _ => Ok (Fin 15)) 0%nat "chop" 1%nat 1
       (mkFrame [] [(0%nat, None)] [(0%nat, 0); (1%nat, 9)])
       (mkFrame [(Fin 16, 1%nat)]
                [(0%nat, None); (1%nat, Some (0%nat, "chop"))]
                [(0%nat, 0); (1%nat, 1)])
       (mkWorld [[("wood", 5); ("plank", 0)]; [("wood", 4); ("plank", 4)]] 3)
       (mkWorld [[("wood", 5); ("plank", 0)]; [("wood", 4); ("plank", 4)]] 3)
       eq_refl) 1%nat 9 eq_refl).
Defined.

(** X17.  When two rules lead from the current state to equal states
    that had no recorded cost, and the priorities of the pushes can be
    computed (the heuristic returns and the additions do not overflow),
    the two calls of the loop body leave the smaller of the two costs
    recorded, with the rule of that cost as predecessor; on equal costs
    the rule handled first stays. *)
Theorem cheaper_rule_is_recorded (heuristic : State -> result num)
    (current : ref) (n1 n2 : string) (next1 next2 : ref) (a1 a2 : Z)
    (fr : frame) (w : world) (d : State) (c : Z) (hv p1 p2 : num) :
  heap w !! current = Some d ->
  heuristic d = Ok hv ->
  num_add (Fin (a1 + c)) hv = Ok p1 ->
  (a2 < a1 -> num_add (Fin (a2 + c)) hv = Ok p2) ->
  dict_get (heap w) (cost_so_far fr) current = Some c ->
  obj_eqb (heap w) next1 next2 = true ->
  obj_eqb (heap w) next1 current = false ->
  dict_get (heap w) (cost_so_far fr) next1 = None ->
  exists fr1 fr2 : frame,
    relax heuristic current (n1, next1, a1) fr w = Ret fr1 w /\
    relax heuristic current (n2, next2, a2) fr1 w = Ret fr2 w /\
    dict_get (heap w) (cost_so_far fr2) next1 = Some (Z.min a1 a2 + c) /\
    dict_get (heap w) (came_from_dict fr2) next1 =
      Some (Some (current, if a2 <? a1 then n2 else n1)).
Proof.
  intros Hcur Hh Hp1 Hp2 Hc Heq Hne Hnone.
  pose proof Heq as Heq'. apply obj_eqb_true in Heq' as (x & Hx1 & Hx2).
  assert (Hs1 : is_Some (heap w !! next1)) by eauto.
  assert (Hs2 : is_Some (heap w !! next2)) by eauto.
  pose proof (relax_run heuristic current n1 next1 a1 fr w d c hv p1 Hcur Hc Hh
                (fun _ => Hp1)) as Hrun1.
  rewrite Hnone in Hrun1.
  set (fr1 := mkFrame
                (heappush (frontier fr) (p1, next1))
                (dict_set (heap w) (came_from_dict fr) next1 (Some (current, n1)))
                (dict_set (heap w) (cost_so_far fr) next1 (a1 + c))) in *.
  assert (Hc1 : dict_get (heap w) (cost_so_far fr1) current = Some c).
  { subst fr1. cbn [cost_so_far]. now rewrite dict_get_set_other. }
  assert (Hn1 : dict_get (heap w) (cost_so_far fr1) next1 = Some (a1 + c)).
  { subst fr1. cbn [cost_so_far]. now apply dict_get_set_same. }
  assert (Hf1 : dict_get (heap w) (came_from_dict fr1) next1
                = Some (Some (current, n1))).
  { subst fr1. cbn [came_from_dict]. now apply dict_get_set_same. }
  assert (Hn2 : dict_get (heap w) (cost_so_far fr1) next2 = Some (a1 + c))
    by (now rewrite <- (dict_get_eqb _ _ next1 next2 Heq)).
  pose proof (relax_run heuristic current n2 next2 a2 fr1 w d c hv p2 Hcur Hc1
                Hh) as Hrun2.
  rewrite Hn2 in Hrun2.
  assert (Himp : improves (heap w) (cost_so_far fr1) next2 (a2 + c) ->
                 num_add (Fin (a2 + c)) hv = Ok p2).
  { intros [Hno|(old & Hold & Hlt)]; [congruence|].
    apply Hp2. rewrite Hn2 in Hold. injection Hold as <-. lia. }
  specialize (Hrun2 Himp).
  exists fr1. eexists. split; [exact Hrun1|]. split; [exact Hrun2|].
  destruct (Z.ltb_spec (a2 + c) (a1 + c)) as [Hlt|Hge].
  - destruct (Z.ltb_spec a2 a1); [|lia]. cbn [cost_so_far came_from_dict].
    rewrite !(dict_get_eqb _ _ next1 next2 Heq).
    rewrite !dict_get_set_same by assumption.
    split; [f_equal; lia|reflexivity].
  - destruct (Z.ltb_spec a2 a1); [lia|].
    rewrite Hn1, Hf1. split; [f_equal; lia|reflexivity].
Qed.

Lemma cheaper_rule_is_recorded_witness :
  exists fr1 fr2 : frame,
    relax (fun _ => Ok (Fin 15)) 0%nat ("dear", 1%nat, 5)
          (mkFrame [] [(0%nat, None)] [(0%nat, 0)])
          (mkWorld [[("a", 0)]; [("a", 1)]; [("a", 1)]] 0)
      = Ret fr1 (mkWorld [[("a", 0)]; [("a", 1)]; [("a", 1)]] 0) /\
    relax (fun _ => Ok (Fin 15)) 0%nat ("cheap", 2%nat, 1) fr1
          (mkWorld [[("a", 0)]; [("a", 1)]; [("a", 1)]] 0)
      = Ret fr2 (mkWorld [[("a", 0)]; [("a", 1)]; [("a", 1)]] 0) /\
    dict_get [[("a", 0)]; [("a", 1)]; [("a", 1)]] (cost_so_far fr2) 1%nat
      = Some (Z.min 5 1 + 0) /\
    dict_get [[("a", 0)]; [("a", 1)]; [("a", 1)]] (came_from_dict fr2) 1%nat
      = Some (Some (0%nat, if 1 <? 5 then "cheap" else "dear")).
Proof.
  apply (cheaper_rule_is_recorded (fun _ => Ok (Fin 15)) 0%nat "dear" "cheap"
           1%nat 2%nat 5 1 (mkFrame [] [(0%nat, None)] [(0%nat, 0)])
           (mkWorld [[("a", 0)]; [("a", 1)]; [("a", 1)]] 0) [("a", 0)] 0
           (Fin 15) (Fin 20) (Fin 16));
    first [reflexivity | intros _; reflexivity].
Defined.

(** ** Compilation of rule descriptions *)

Lemma build_recipes_describe (rules : list (string * Rule)) :
  build_recipes (map (fun r => (fst r, describe (snd r))) rules)
  = Ok (build_rules rules).
Proof.
  induction rules as [|[nm [c r p t]] rules IH]; [reflexivity|].
  cbn [map fst snd build_recipes describe described_Time]. rewrite IH.
  reflexivity.
Qed.

Lemma build_recipes_returns (descs : list (string * Description)) :
  (forall nm desc, In (nm, desc) descs -> is_Some (described_Time desc)) ->
  exists rs,
    build_recipes descs = Ok rs /\
    Forall2 (fun nd r =>
               name r = fst nd /\
               Some (cost r) = described_Time (snd nd) /\
               check r = checker_of (snd nd) /\
               effect r = effector_of (snd nd)) descs rs.
Proof.
  induction descs as [|[nm desc] descs IH]; intros Htime.
  - exists []. split; [reflexivity|constructor].
  - destruct (Htime nm desc) as [t Ht]; [now left|].
    destruct IH as (rs & Hrs & Hall);
      [intros nm' desc' H; apply (Htime nm' desc'); now right|].
    cbn [build_recipes]. rewrite Ht, Hrs. cbn [rbind].
    eexists. split; [reflexivity|]. constructor; [|exact Hall].
    cbn [name cost check effect fst snd]. auto.
Qed.

Lemma build_recipes_raises (descs : list (string * Description)) (e : exn) :
  build_recipes descs = Raise e ->
  e = KeyError "Time" /\
  exists nm desc, In (nm, desc) descs /\ described_Time desc = None.
Proof.
  induction descs as [|[nm desc] descs IH]; cbn [build_recipes];
    [discriminate|].
  destruct (described_Time desc) as [t|] eqn:Ht.
  - destruct (build_recipes descs) as [rs|e'] eqn:Hrs; cbn [rbind];
      [discriminate|].
    intros [= ->]. destruct (IH eq_refl) as (-> & nm' & desc' & Hin & Hno).
    split; [reflexivity|]. exists nm', desc'. split; [now right|exact Hno].
  - intros [= <-]. split; [reflexivity|]. exists nm, desc.
    split; [now left|exact Ht].
Qed.

Lemma check_amounts_short (state : State) (pre post : list (string * Z))
    (m : string) (b q : Z) :
  meets state pre -> getitem state m = Ok q -> q < b ->
  check_amounts state (pre ++ (m, b) :: post) = Ok false.
Proof.
  intros Hpre Hq Hlt. induction pre as [|[k c] pre IH]; simpl.
  - rewrite Hq. simpl. destruct (Z.ltb_spec q b); [reflexivity|lia].
  - destruct (Hpre k c) as [q' [Hq' Hle]]; [now left|].
    rewrite Hq'. simpl. destruct (Z.ltb_spec q' c); [lia|].
    apply IH. intros k' c' Hk. apply Hpre. now right.
Qed.

Lemma graph_raises (before after : list Recipe) (r : Recipe) (current : ref)
    (d : State) (A : Type) (body : succ -> A -> M A) (acc : A) (w : world)
    (e : exn) :
  heap w !! current = Some d ->
  (forall r', In r' before -> check r' d = Ok false) ->
  check r d = Raise e \/ (check r d = Ok true /\ effect r current w = Exc e) ->
  graph (before ++ r :: after) current A body acc w = Exc e.
Proof.
  intros Hcur Hbefore Hr. induction before as [|r0 before IH]; cbn [app].
  - rewrite (graph_yields _ _ _ d) by assumption.
    destruct Hr as [->|[-> Heff]]; [reflexivity|].
    rewrite bind_run. now rewrite Heff.
  - rewrite (graph_yields _ _ _ d) by assumption.
    rewrite (Hbefore r0) by now left. apply IH.
    intros r' Hr'. apply Hbefore. now right.
Qed.

Lemma search_first_expansion_raises (clock : nat -> Z)
    (before after : list Recipe) (r : Recipe) (state : ref)
    (is_goal : State -> result bool) (limit : Z)
    (heuristic : State -> result num) (fuel : nat) (w : world) (d : State)
    (e : exn) :
  heap w !! state = Some d ->
  is_goal d = Ok false ->
  clock (S (ticks w)) - clock (ticks w) < limit ->
  (forall r', In r' before -> check r' d = Ok false) ->
  check r d = Raise e \/
  (check r d = Ok true /\
   effect r state (mkWorld (heap w) (S (S (S (ticks w))))) = Exc e) ->
  search clock (graph (before ++ r :: after)) state is_goal limit heuristic
         (S (S fuel)) w = Exc e.
Proof.
  intros Hstate Hgoal Hlimit Hbefore Hr.
  unfold search. rewrite bind_run. cbn [time restart].
  rewrite bind_run. cbn [time heap ticks].
  destruct (Z.ltb_spec (clock (S (ticks w)) - clock (ticks w)) limit);
    [|lia].
  rewrite bind_run. cbn [get_heap heap]. rewrite bind_run.
  cbn [explore frontier]. unfold heappush at 1. cbn [app].
  rewrite bind_run. cbn [get_heap heap].
  change [(Fin 0, state)] with (heappush [] (Fin 0, state)).
  rewrite heappop_single. rewrite bind_run. cbn [pop_event heap ticks].
  rewrite bind_run. unfold deref. cbn [heap]. rewrite Hstate.
  rewrite bind_run. unfold lift. rewrite Hgoal. rewrite bind_run.
  now rewrite (graph_raises before after r state d _ _ _ _ e).
Qed.

(** C9 (as amended).  Nothing is validated when the rules are compiled.
    The rule-building loop fails in one case only, a description without
    a [Time] entry, with the KeyError of ['Time']; when every description
    has one, the loop builds one Recipe for each, in order, whatever items
    the clauses name and whatever the sign of the cost, which becomes the
    cost of the Recipe.  An item that the states lack is met only when a
    closure indexes a state: [check] raises the KeyError of a missing
    Consumes or Requires item once the lookups before it have passed, and
    answers false without raising when a lookup before it fails; [effect]
    raises the KeyError of a missing Consumes or Produces item, and the
    KeyError of ['Produces'] when the description has no such entry.  In
    [search], when the initial state is not a goal, the first test of the
    deadline passes and the rules before the faulty one do not apply, the
    first expansion raises that exception. *)
Theorem rule_building_fails_only_without_Time :
  (forall descs : list (string * Description),
      (forall nm desc, In (nm, desc) descs -> is_Some (described_Time desc)) ->
      exists rs,
        build_recipes descs = Ok rs /\
        Forall2 (fun nd r =>
                   name r = fst nd /\
                   Some (cost r) = described_Time (snd nd) /\
                   check r = checker_of (snd nd) /\
                   effect r = effector_of (snd nd)) descs rs) /\
  (forall (descs : list (string * Description)) (e : exn),
      build_recipes descs = Raise e ->
      e = KeyError "Time" /\
      exists nm desc, In (nm, desc) descs /\ described_Time desc = None) /\
  (forall (desc : Description) (state : State) (pre post : list (string * Z))
          (n : string) (a : Z),
      thresholds (rule_of desc) = pre ++ (n, a) :: post ->
      meets state pre ->
      (~ In n (keys state) -> checker_of desc state = Raise (KeyError n)) /\
      (forall q, getitem state n = Ok q -> q < a ->
                 checker_of desc state = Ok false)) /\
  (forall (desc : Description) (state : ref) (d : State) (w : world)
          (pre post : list (string * Z)) (n : string) (a : Z),
      heap w !! state = Some d ->
      List.NoDup (keys d) ->
      (forall m, In m (map fst pre) -> In m (keys d)) ->
      ~ In n (keys d) ->
      (clause (described_Consumes desc) = pre ++ (n, a) :: post ->
       effector_of desc state w = Exc (KeyError n)) /\
      ((forall m, In m (map fst (clause (described_Consumes desc))) ->
                  In m (keys d)) ->
       described_Produces desc = Some (pre ++ (n, a) :: post) ->
       effector_of desc state w = Exc (KeyError n))) /\
  (forall (desc : Description) (state : ref) (d : State) (w : world),
      heap w !! state = Some d ->
      List.NoDup (keys d) ->
      (forall m, In m (map fst (clause (described_Consumes desc))) ->
                 In m (keys d)) ->
      described_Produces desc = None ->
      effector_of desc state w = Exc (KeyError "Produces")) /\
  (forall (clock : nat -> Z) (before after : list Recipe) (r : Recipe)
          (state : ref) (is_goal : State -> result bool) (limit : Z)
          (heuristic : State -> result num) (fuel : nat) (w : world)
          (d : State) (e : exn),
      heap w !! state = Some d ->
      is_goal d = Ok false ->
      clock (S (ticks w)) - clock (ticks w) < limit ->
      (forall r', In r' before -> check r' d = Ok false) ->
      check r d = Raise e \/
      (check r d = Ok true /\
       effect r state (mkWorld (heap w) (S (S (S (ticks w))))) = Exc e) ->
      search clock (graph (before ++ r :: after)) state is_goal limit
             heuristic (S (S fuel)) w = Exc e).
Proof.
  split; [exact build_recipes_returns|].
  split; [exact build_recipes_raises|].
  split.
  { intros desc state pre post n a Hth Hpre. unfold checker_of.
    rewrite make_checker_thresholds, Hth. split.
    - intros Hn. now apply check_amounts_missing.
    - intros q Hq Hlt. now apply (check_amounts_short state pre post n a q). }
  split; [|split; [|exact search_first_expansion_raises]].
  2: { intros desc state d w Hstate Hnd Hc Hp. unfold effector_of.
       rewrite Hp, bind_run, (make_effector_items _ _ d) by assumption.
       cbn [rule_of Consumes Produces]. rewrite Hp.
       destruct (adjust_keys Z.sub (clause (described_Consumes desc)) d Hc)
         as (d1 & -> & Hk). reflexivity. }
  intros desc state d w pre post n a Hstate Hnd Hpre Hn.
  assert (Hrun : forall rule, make_effector rule state w =
            match rbind (adjust Z.sub d (clause (Consumes rule)))
                        (fun d1 => adjust Z.add d1 (Produces rule)) with
            | Ok d' => Ret (length (heap w))
                           (mkWorld (heap w ++ [d']) (ticks w))
            | Raise e => Exc e
            end)
    by (intros rule; now apply make_effector_items).
  split.
  - intros Hc.
    assert (Heff : make_effector (rule_of desc) state w = Exc (KeyError n)).
    { rewrite Hrun. cbn [rule_of Consumes]. rewrite Hc.
      now rewrite adjust_missing. }
    unfold effector_of. destruct (described_Produces desc); [exact Heff|].
    rewrite bind_run. now rewrite Heff.
  - intros Hc Hp. unfold effector_of. rewrite Hp, Hrun.
    cbn [rule_of Consumes Produces]. rewrite Hp.
    destruct (adjust_keys Z.sub (clause (described_Consumes desc)) d Hc)
      as (d1 & -> & Hk).
    cbn [rbind]. rewrite adjust_missing; [reflexivity| |]; now rewrite Hk.
Qed.

Lemma rule_building_fails_only_without_Time_witness :
  (exists rs,
     build_recipes
       [("saw", mkDescription (Some [("ghost", 1)]) None
                              (Some [("plank", 1)]) (Some (-3)))] = Ok rs /\
     map name rs = ["saw"] /\ map cost rs = [-3]) /\
  checker_of (mkDescription (Some [("ghost", 1)]) None
                            (Some [("plank", 1)]) (Some (-3)))
             [("wood", 5); ("plank", 0)] = Raise (KeyError "ghost") /\
  checker_of (mkDescription (Some [("wood", 9); ("ghost", 1)]) None
                            (Some [("plank", 1)]) (Some 1))
             [("wood", 5); ("plank", 0)] = Ok false /\
  effector_of (mkDescription None None (Some [("ghost", 1)]) (Some 1)) 0%nat
              (mkWorld [[("wood", 5); ("plank", 0)]] 0)
    = Exc (KeyError "ghost") /\
  effector_of (mkDescription (Some [("wood", 1)]) None None (Some 1)) 0%nat
              (mkWorld [[("wood", 5); ("plank", 0)]] 0)
    = Exc (KeyError "Produces") /\
  (exists nm desc,
     In (nm, desc)
        [("chop", mkDescription None None (Some [("wood", 1)]) (Some 1));
         ("saw", mkDescription (Some [("wood", 1)]) None
                               (Some [("plank", 1)]) None)] /\
     described_Time desc = None) /\
  search (fun _ => 0) (graph (build_rules (Recipes malformed_domain))) 0%nat
         (make_goal_checker (Goal_ malformed_domain)) 5
         (fun _ => Ok (Fin 15)) 2
         (mkWorld [initial_state malformed_domain] 0)
    = Exc (KeyError "ghost").
Proof.
  destruct rule_building_fails_only_without_Time
    as (Hbuild & Hraises & Hcheck & Heffect & Hproduces & Hsearch).
  assert (Hmeets0 : meets [("wood", 5); ("plank", 0)] []) by (intros n a []).
  assert (Hghost : ~ In "ghost" (keys [("wood", 5); ("plank", 0)])).
  { simpl. intros [H|[H|[]]]; discriminate. }
  split; [|split; [|split; [|split; [|split; [|split]]]]].
  - destruct (Hbuild
                [("saw", mkDescription (Some [("ghost", 1)]) None
                                       (Some [("plank", 1)]) (Some (-3)))])
      as (rs & Hrs & Hall).
    + intros nm desc [[= <- <-]|[]]. cbn. eauto.
    + exists rs. split; [exact Hrs|].
      inversion Hall as [|? r ? rs' (Hn & Hc & _) Htl]; subst.
      inversion Htl; subst. cbn in Hn, Hc. injection Hc as Hc.
      cbn. now rewrite Hn, Hc.
  - apply (proj1 (Hcheck
             (mkDescription (Some [("ghost", 1)]) None
                            (Some [("plank", 1)]) (Some (-3)))
             [("wood", 5); ("plank", 0)] [] [] "ghost" 1 eq_refl Hmeets0)).
    exact Hghost.
  - apply (proj2 (Hcheck
             (mkDescription (Some [("wood", 9); ("ghost", 1)]) None
                            (Some [("plank", 1)]) (Some 1))
             [("wood", 5); ("plank", 0)] [] [("ghost", 1)] "wood" 9 eq_refl
             Hmeets0) 5); [reflexivity|lia].
  - apply (proj2 (Heffect
             (mkDescription None None (Some [("ghost", 1)]) (Some 1)) 0%nat
             [("wood", 5); ("plank", 0)]
             (mkWorld [[("wood", 5); ("plank", 0)]] 0) [] [] "ghost" 1
             eq_refl
             ltac:(simpl; repeat constructor; simpl; intuition discriminate)
             ltac:(intros m []) Hghost)).
    + intros m [].
    + reflexivity.
  - apply (Hproduces
             (mkDescription (Some [("wood", 1)]) None None (Some 1)) 0%nat
             [("wood", 5); ("plank", 0)]
             (mkWorld [[("wood", 5); ("plank", 0)]] 0) eq_refl);
      [|intros m [<-|[]]; now left|reflexivity].
    simpl; repeat constructor; simpl; intuition discriminate.
  - apply (Hraises
             [("chop", mkDescription None None (Some [("wood", 1)]) (Some 1));
              ("saw", mkDescription (Some [("wood", 1)]) None
                                    (Some [("plank", 1)]) None)]
             (KeyError "Time") eq_refl).
  - apply (Hsearch (fun _ => 0) [] []
                   (mkRecipe "saw"
                      (make_checker
                         (mkRule (Some [("ghost", 1)]) None [("plank", 1)] (-3)))
                      (make_effector
                         (mkRule (Some [("ghost", 1)]) None [("plank", 1)] (-3)))
                      (-3))
                   0%nat (make_goal_checker (Goal_ malformed_domain)) 5
                   (fun _ => Ok (Fin 15)) 0%nat
                   (mkWorld [initial_state malformed_domain] 0)
                   (initial_state malformed_domain) (KeyError "ghost")).
    + reflexivity.
    + reflexivity.
    + lia.
    + intros r' [].
    + left. reflexivity.
Defined.
